(** * Route planning of [organic_route_designer.py]

    A shallow embedding of the class [OrganicRouteDesigner]: its knowledge
    base (compounds, reactions, starting materials), the minimum-cost search
    [_best_cost], the step extraction [_collect_steps], the entry point
    [design_route], the renderer [route_to_text] and the ranking
    [demo_targets], followed by the properties of the planner. *)

From stdpp Require Import gmap strings list fin_maps sorting pretty.
From Stdlib Require Import ZArith Lia.

Local Open Scope string_scope.
Local Open Scope list_scope.
Local Open Scope Z_scope.

(** ** Data model *)

(** [@dataclass(frozen=True) class Reaction]: equality and hashing are by
    field values. *)
Record Reaction : Type := mkReaction {
  reactants : list string;
  product : string;
  condition : string;
  reaction_type : string
}.

#[global] Instance Reaction_eq_dec : EqDecision Reaction.
Proof. solve_decision. Defined.

#[global] Instance Reaction_countable : Countable Reaction.
Proof.
  refine (inj_countable'
    (fun r => (reactants r, product r, condition r, reaction_type r))
    (fun t => match t with (rs, p, c, ty) => mkReaction rs p c ty end) _).
  by intros [].
Defined.

(** A Python [dict] iterated in insertion order ([id_to_name.items()]):
    assigning to a present key keeps its position, a new key goes last. *)
Fixpoint dict_set (k v : string) (d : list (string * string)) : list (string * string) :=
  match d with
  | [] => [(k, v)]
  | (k', v') :: d' => if decide (k' = k) then (k, v) :: d' else (k', v') :: dict_set k v d'
  end.

Fixpoint dict_get (k : string) (d : list (string * string)) : option string :=
  match d with
  | [] => None
  | (k', v') :: d' => if decide (k' = k) then Some v' else dict_get k d'
  end.

(** The fields of an instance of [class OrganicRouteDesigner]. *)
Record OrganicRouteDesigner : Type := mkDesigner {
  name_to_id : gmap string string;
  id_to_name : list (string * string);
  reactions : list Reaction;
  product_to_reactions : gmap string (list Reaction);
  starting_materials : gset string
}.

Definition empty_designer : OrganicRouteDesigner :=
  mkDesigner ∅ [] [] ∅ ∅.

Definition _add_compound (cid name : string) (d : OrganicRouteDesigner)
    : OrganicRouteDesigner :=
  mkDesigner (<[name := cid]> (name_to_id d))
             (dict_set cid name (id_to_name d))
             (reactions d) (product_to_reactions d) (starting_materials d).

(** [product_to_reactions.setdefault(product, []).append(rxn)] *)
Definition _add_reaction (rs : list string) (p cond ty : string)
    (d : OrganicRouteDesigner) : OrganicRouteDesigner :=
  let rxn := mkReaction rs p cond ty in
  mkDesigner (name_to_id d) (id_to_name d)
             (reactions d ++ [rxn])
             (<[p := default [] (product_to_reactions d !! p) ++ [rxn]]> (product_to_reactions d))
             (starting_materials d).

Definition set_starting_materials (sm : gset string) (d : OrganicRouteDesigner)
    : OrganicRouteDesigner :=
  mkDesigner (name_to_id d) (id_to_name d) (reactions d) (product_to_reactions d) sm.

(** ** The knowledge base built by [__init__] *)

Definition PREFIX : gmap nat string :=
  list_to_map
    [ (1, "甲"); (2, "乙"); (3, "丙"); (4, "丁"); (5, "戊");
      (6, "己"); (7, "庚"); (8, "辛"); (9, "壬"); (10, "癸") ]%nat.

(** [PREFIX[n]]; the source only indexes it with [n] in [range(1, 11)]. *)
Definition prefix (n : nat) : string :=
  default "" (PREFIX !! n).

(** [range(1, 11)] *)
Definition range_1_11 : list nat := seq 1 10.

(** [f"{kind}:C{n}"] *)
Definition cN (kind : string) (n : nat) : string := kind +:+ ":C" +:+ pretty n.

Definition ester_id (a b : nat) : string := "ester:C" +:+ pretty a +:+ ":C" +:+ pretty b.

Definition aromatic : list (string * string) :=
  [ ("benzene", "苯"); ("chlorobenzene", "氯苯"); ("bromobenzene", "溴苯");
    ("nitrobenzene", "硝基苯"); ("aniline", "苯胺"); ("phenol", "苯酚") ].

Definition _build_compounds (d : OrganicRouteDesigner) : OrganicRouteDesigner :=
  let d1 :=
    foldl (fun d n =>
      let p := prefix n in
      let d := _add_compound (cN "alkane" n) (p +:+ "烷") d in
      let d := _add_compound (cN "haloalkane" n) ("氯" +:+ p +:+ "烷") d in
      let d := _add_compound (cN "alcohol" n) (p +:+ "醇") d in
      let d := _add_compound (cN "aldehyde" n) (p +:+ "醛") d in
      let d := _add_compound (cN "acid" n) (p +:+ "酸") d in
      if decide (2 <= n)%nat then _add_compound (cN "alkene" n) (p +:+ "烯") d else d)
    d range_1_11 in
  let d2 :=
    foldl (fun d a =>
      foldl (fun d b =>
        _add_compound (ester_id a b) (prefix a +:+ "酸" +:+ prefix b +:+ "酯") d)
      d range_1_11)
    d1 range_1_11 in
  foldl (fun d kv => _add_compound (fst kv) (snd kv) d) d2 aromatic.

Definition _build_reactions (d : OrganicRouteDesigner) : OrganicRouteDesigner :=
  let d1 :=
    foldl (fun d n =>
      let alkane := cN "alkane" n in
      let halo := cN "haloalkane" n in
      let alcohol := cN "alcohol" n in
      let aldehyde := cN "aldehyde" n in
      let acid := cN "acid" n in
      let d := _add_reaction [alkane] halo "Cl₂/光照（取代）" "取代反应" d in
      let d := _add_reaction [halo] alcohol "NaOH(水), 加热（取代）" "取代反应" d in
      let d := _add_reaction [alcohol] halo "HCl/ZnCl₂ 或 SOCl₂" "取代反应" d in
      let d :=
        if decide (2 <= n)%nat then
          let alkene := cN "alkene" n in
          let d := _add_reaction [halo] alkene "NaOH(醇), 加热（消去）" "消去反应" d in
          let d := _add_reaction [alkene] alcohol "H₂O/H⁺（加成）" "加成反应" d in
          _add_reaction [alcohol] alkene "浓H₂SO₄, 170℃（消去）" "消去反应" d
        else d in
      let d := _add_reaction [alcohol] aldehyde "Cu/加热 或 催化氧化" "氧化反应" d in
      _add_reaction [aldehyde] acid "酸性KMnO₄ 或 [O]" "氧化反应" d)
    d range_1_11 in
  let d2 :=
    foldl (fun d a =>
      foldl (fun d b =>
        _add_reaction [cN "acid" a; cN "alcohol" b] (ester_id a b)
                      "浓H₂SO₄, 加热（酯化）" "酯化反应" d)
      d range_1_11)
    d1 range_1_11 in
  let d := _add_reaction ["benzene"] "chlorobenzene" "Cl₂/FeCl₃（苯环取代）" "取代反应" d2 in
  let d := _add_reaction ["benzene"] "bromobenzene" "Br₂/FeBr₃（苯环取代）" "取代反应" d in
  let d := _add_reaction ["benzene"] "nitrobenzene" "浓HNO₃+浓H₂SO₄, 55℃" "硝化反应" d in
  let d := _add_reaction ["nitrobenzene"] "aniline" "Fe/HCl 还原" "还原反应" d in
  _add_reaction ["chlorobenzene"] "phenol" "NaOH(高温高压), 后酸化" "水解反应" d.

Definition init_starting_materials : gset string :=
  list_to_set (map (cN "alkane") range_1_11)
  ∪ list_to_set ["alkene:C2"; "alkene:C3"; "alkene:C4"; "benzene"; "alcohol:C1"; "alcohol:C2"].

(** [OrganicRouteDesigner()] *)
Definition designer : OrganicRouteDesigner :=
  set_starting_materials init_starting_materials
    (_build_reactions (_build_compounds empty_designer)).

Definition compound_name (d : OrganicRouteDesigner) (cid : string) : string :=
  default cid (dict_get cid (id_to_name d)).

Definition compound_id (d : OrganicRouteDesigner) (name : string) : option string :=
  name_to_id d !! name.

(** ** Minimum-cost search: [_best_cost] *)

(** The sentinel [10**9] that stands for an unreachable compound. *)
Definition INF : Z := 1000000000.

(** [Tuple[int, Optional[Reaction]]] *)
Definition cost_result : Type := Z * option Reaction.

Section Planner.
Variable d : OrganicRouteDesigner.

(** [self.product_to_reactions.get(target, [])] *)
Definition rules_producing (target : string) : list Reaction :=
  default [] (product_to_reactions d !! target).

(** The loop over [rxn.reactants] (lines 152-159): the running [total]
    when every reactant is reachable, [None] after [feasible = False; break].
    The outer [option] is [None] when a recursive call has no fuel left. *)
Fixpoint reactants_total (rec : string -> option cost_result)
    (rs : list string) (total : Z) : option (option Z) :=
  match rs with
  | [] => Some (Some total)
  | reactant :: rs' =>
      cr ← rec reactant;
      if bool_decide (INF <= cr.1) then Some None
      else reactants_total rec rs' (total + cr.1)
  end.

(** The loop over the reactions producing the target (lines 151-161). *)
Fixpoint best_loop (rec : string -> option cost_result)
    (rxns : list Reaction) (best : cost_result) : option cost_result :=
  match rxns with
  | [] => Some best
  | rxn :: rest =>
      t ← reactants_total rec (reactants rxn) 1;
      match t with
      | Some total =>
          if bool_decide (total < best.1) then best_loop rec rest (total, Some rxn)
          else best_loop rec rest best
      | None => best_loop rec rest best
      end
  end.

(** The body of [_best_cost], with the recursive calls made through [rec]. *)
Definition best_cost_body (rec : string -> list string -> option cost_result)
    (target : string) (stack : list string) : option cost_result :=
  if bool_decide (target ∈ starting_materials d) then Some (0, None)
  else if bool_decide (target ∈ stack) then Some (INF, None)
  else best_loop (fun r => rec r (stack ++ [target])) (rules_producing target) (INF, None).

(** [_best_cost] is recursive through its loops; [fuel] bounds the depth
    of the recursion, and [None] means the bound was hit. This is the
    body of the method; the [lru_cache] around it is [best_cost_memo]
    below, which returns the same results as long as the knowledge base is
    not changed after a query ([best_cost_memo_correct]). *)
Fixpoint best_cost_fuel (fuel : nat) : string -> list string -> option cost_result :=
  match fuel with
  | O => fun _ _ => None
  | S f => best_cost_body (best_cost_fuel f)
  end.

(** One more than the number of compounds some reaction produces. *)
Definition depth_bound : nat := S (size (dom (product_to_reactions d))).

(** [depth_bound] is always enough ([best_cost_fuel_enough] below), so the
    default is never taken. *)
Definition _best_cost (target : string) (stack : list string) : cost_result :=
  default (INF, None) (best_cost_fuel depth_bound target stack).

(** ** Step extraction: [_collect_steps] *)

(** The two mutable arguments [seen : Set[Reaction]] and
    [ordered : List[Reaction]], threaded through the calls. *)
Definition collect_state : Type := gset Reaction * list Reaction.

(** The loop over [rxn.reactants] (lines 170-172); [false] is the early
    [return False]. *)
Fixpoint collect_loop (rec : string -> collect_state -> option (bool * collect_state))
    (rs : list string) (st : collect_state) : option (bool * collect_state) :=
  match rs with
  | [] => Some (true, st)
  | r :: rs' =>
      match rec r st with
      | None => None
      | Some (true, st1) => collect_loop rec rs' st1
      | Some (false, st1) => Some (false, st1)
      end
  end.

Definition collect_body
    (rec : string -> collect_state -> list string -> option (bool * collect_state))
    (target : string) (st : collect_state) (stack : list string)
    : option (bool * collect_state) :=
  if bool_decide (target ∈ starting_materials d) then Some (true, st)
  else
    match (_best_cost target stack).2 with
    | None => Some (false, st)
    | Some rxn =>
        match collect_loop (fun r st' => rec r st' (stack ++ [target])) (reactants rxn) st with
        | None => None
        | Some (false, st1) => Some (false, st1)
        | Some (true, (seen, ordered)) =>
            if bool_decide (rxn ∈ seen) then Some (true, (seen, ordered))
            else Some (true, (seen ∪ {[rxn]}, ordered ++ [rxn]))
        end
    end.

Fixpoint collect_steps_fuel (fuel : nat)
    : string -> collect_state -> list string -> option (bool * collect_state) :=
  match fuel with
  | O => fun _ _ _ => None
  | S f => collect_body (collect_steps_fuel f)
  end.

Definition _collect_steps (target : string) (st : collect_state) (stack : list string)
    : bool * collect_state :=
  default (false, st) (collect_steps_fuel depth_bound target st stack).

(** ** [design_route]; Python's [None] is [None], a list [l] is [Some l]. *)
Definition design_route (target_name : string) : option (list Reaction) :=
  match compound_id d target_name with
  | None => None
  | Some cid =>
      if bool_decide (INF <= (_best_cost cid []).1) then Some []
      else
        let res := _collect_steps cid (∅, []) [] in
        Some (if res.1 then res.2.2 else [])
  end.
End Planner.

(** ** [route_to_text] *)

Definition newline : string := String (Ascii.ascii_of_nat 10) EmptyString.

(** [sep.join(parts)] *)
Fixpoint join (sep : string) (parts : list string) : string :=
  match parts with
  | [] => ""
  | [s] => s
  | s :: rest => s +:+ sep +:+ join sep rest
  end.

(** [f"{i:02d}"] for the step numbers [1, 2, ...]. *)
Definition fmt_02d (i : nat) : string :=
  if decide (i < 10)%nat then "0" +:+ pretty i else pretty i.

Definition step_line (d : OrganicRouteDesigner) (i : nat) (step : Reaction) : string :=
  fmt_02d i +:+ ". " +:+ join " + " (map (compound_name d) (reactants step))
  +:+ " → " +:+ compound_name d (product step)
  +:+ "    [" +:+ reaction_type step +:+ "；条件：" +:+ condition step +:+ "]".

Definition route_to_text (d : OrganicRouteDesigner) (target_name : string)
    (route : option (list Reaction)) : string :=
  match route with
  | None => "目标物“" +:+ target_name +:+ "”不在数据库中。"
  | Some [] => "无法由设定起始原料合成“" +:+ target_name +:+ "”。"
  | Some steps =>
      join newline
        (("目标产物：" +:+ target_name) :: "推荐路线（按合成先后）："
         :: imap (fun i step => step_line d (S i) step) steps)
  end.

(** ** Ranking: [demo_targets] *)

(** The order of Python tuples [(cost, name)]: costs first, then names.
    Python compares [str] by code point; on the UTF-8 bytes of a [string]
    that is the bytewise order of [String.leb]. *)
Definition key_le (x y : Z * string) : Prop :=
  x.1 < y.1 ∨ (x.1 = y.1 ∧ String.leb x.2 y.2 = true).

#[global] Instance key_le_dec : RelDecision key_le.
Proof. intros x y. unfold key_le. apply _. Defined.

(** [l[:count]], with Python's reading of a negative [count]. *)
Definition slice_to {A : Type} (count : Z) (l : list A) : list A :=
  if bool_decide (0 <= count) then take (Z.to_nat count) l
  else take (Z.to_nat (Z.of_nat (length l) + count)) l.

(** The loop of lines 207-212. *)
Fixpoint candidates_loop (d : OrganicRouteDesigner) (items : list (string * string))
    : list (Z * string) :=
  match items with
  | [] => []
  | (cid, name) :: rest =>
      if bool_decide (cid ∈ starting_materials d) then candidates_loop d rest
      else
        let cost := (_best_cost d cid []).1 in
        if bool_decide (cost < INF) then (cost, name) :: candidates_loop d rest
        else candidates_loop d rest
  end.

Definition candidates (d : OrganicRouteDesigner) : list (Z * string) :=
  candidates_loop d (id_to_name d).

(** [candidates.sort(key=...)] and the slice; equal keys are equal pairs,
    so the sorted list does not depend on the sorting algorithm. The source
    defaults [count] to 120. *)
Definition demo_targets (d : OrganicRouteDesigner) (count : Z) : list string :=
  map snd (slice_to count (merge_sort key_le (candidates d))).

(** ** Specification-level notions used in the statements *)

(** The first component of [_best_cost]: the minimum number of steps. *)
Definition minimum_cost (d : OrganicRouteDesigner) (target : string)
    (path : list string) : Z :=
  (_best_cost d target path).1.

Definition sum_Z (l : list Z) : Z := foldr Z.add 0 l.

(** The cost of one rule as the planner's description words it: infeasible
    when some input is unreachable, otherwise one plus the sum of the costs
    of the inputs, each computed with [target] appended to [path]. *)
Definition rule_cost (d : OrganicRouteDesigner) (target : string) (path : list string)
    (rxn : Reaction) : option Z :=
  let costs := map (fun r => minimum_cost d r (path ++ [target])) (reactants rxn) in
  if forallb (fun c => bool_decide (c < INF)) costs then Some (1 + sum_Z costs) else None.

(** The running best of lines 150-161 over already computed rule costs. *)
Fixpoint pick_best (rc : Reaction -> option Z) (rxns : list Reaction)
    (best : cost_result) : cost_result :=
  match rxns with
  | [] => best
  | rxn :: rest =>
      match rc rxn with
      | Some total =>
          if bool_decide (total < best.1) then pick_best rc rest (total, Some rxn)
          else pick_best rc rest best
      | None => pick_best rc rest best
      end
  end.

(** [product_to_reactions] is the index of [reactions] by product, each
    entry in registration order: the invariant [_add_reaction] maintains. *)
Definition index_ok (d : OrganicRouteDesigner) : Prop :=
  forall p, rules_producing d p = filter (fun r => product r = p) (reactions d).

(** Compounds of the search space not yet on the stack. *)
Definition remaining (d : OrganicRouteDesigner) (stack : list string) : nat :=
  size (dom (product_to_reactions d) ∖ list_to_set stack).

(** The membership set [seen] and the sequence [ordered] hold the same rules. *)
Definition seen_ok (st : collect_state) : Prop :=
  forall r, r ∈ st.1 <-> r ∈ st.2.

(** Dependency order of a route: each input of each rule is a starting
    material or the output of a rule strictly earlier in the sequence. *)
Definition dependency_ordered (d : OrganicRouteDesigner) (steps : list Reaction)
    : Prop :=
  forall l1 r l2, steps = l1 ++ r :: l2 ->
    forall x, x ∈ reactants r ->
      x ∈ starting_materials d \/ exists r', r' ∈ l1 /\ product r' = x.

(** Forward execution of a route from a set of available compounds. *)
Fixpoint simulate (avail : gset string) (steps : list Reaction) : bool :=
  match steps with
  | [] => true
  | r :: rest =>
      forallb (fun x => bool_decide (x ∈ avail)) (reactants r)
      && simulate (avail ∪ {[product r]}) rest
  end.

(** What a successful [_collect_steps target seen ordered stack] has done
    to its two mutable arguments. *)
Definition collect_post (d : OrganicRouteDesigner) (target : string)
    (stack : list string) (st st' : collect_state) : Prop :=
  seen_ok st' /\
  exists ext,
    st'.2 = st.2 ++ ext
    /\ Z.of_nat (length ext) <= minimum_cost d target stack
    /\ (NoDup st.2 -> NoDup st'.2)
    /\ (index_ok d ->
         (dependency_ordered d st.2 -> dependency_ordered d st'.2)
         /\ (target ∉ starting_materials d -> exists r, r ∈ st'.2 /\ product r = target)
         /\ (forall r, r ∈ ext -> product r ∉ stack)
         /\ (target ∉ starting_materials d -> (forall r, r ∈ st.2 -> product r <> target) ->
             exists pre rxn, ext = pre ++ [rxn] /\ product rxn = target)).

(** The same for the loop over the reactants of one rule. *)
Definition collect_loop_post (d : OrganicRouteDesigner) (rs : list string)
    (stack : list string) (st st' : collect_state) : Prop :=
  seen_ok st' /\
  exists ext,
    st'.2 = st.2 ++ ext
    /\ Z.of_nat (length ext) <= sum_Z (map (fun r => minimum_cost d r stack) rs)
    /\ (NoDup st.2 -> NoDup st'.2)
    /\ (index_ok d ->
         (dependency_ordered d st.2 -> dependency_ordered d st'.2)
         /\ (forall x, x ∈ rs -> x ∉ starting_materials d ->
               exists r, r ∈ st'.2 /\ product r = x)
         /\ (forall r, r ∈ ext -> product r ∉ stack)).

(** The post-order traversal of the chosen rules without the membership
    test of lines 173-175: every rule once per branch that needs it. *)
Fixpoint expand_fuel (d : OrganicRouteDesigner) (fuel : nat) (target : string)
    (stack : list string) : list Reaction :=
  match fuel with
  | O => []
  | S f =>
      if bool_decide (target ∈ starting_materials d) then []
      else
        match (_best_cost d target stack).2 with
        | None => []
        | Some rxn =>
            flat_map (fun r => expand_fuel d f r (stack ++ [target])) (reactants rxn)
            ++ [rxn]
        end
  end.

Definition expansion (d : OrganicRouteDesigner) (target : string) : list Reaction :=
  expand_fuel d (depth_bound d) target [].

(** Appending the rules of [l] to [acc] in order, each only if absent:
    the first occurrence of a rule fixes its place. *)
Definition dedup_onto (acc l : list Reaction) : list Reaction :=
  foldl (fun acc r => if bool_decide (r ∈ acc) then acc else acc ++ [r]) acc l.

(** ** Two small knowledge bases *)

(** A rule cycle: [A] is made from [B] and [B] from [A]; [S] is the only
    starting material and takes no part. *)
Definition cycle_designer : OrganicRouteDesigner :=
  set_starting_materials {["S"]}
    (_add_reaction ["A"] "B" "reverse" "cycle"
      (_add_reaction ["B"] "A" "forward" "cycle"
        (_add_compound "S" "s"
          (_add_compound "B" "b"
            (_add_compound "A" "a" empty_designer))))).

(** Rules that use a thousand units of their single input: [A1] from the
    starting material [S], then [A2], [A3], [A4] each from the one before. *)
Definition wide1 : Reaction := mkReaction ["S"] "A1" "direct" "wide".
Definition wide2 : Reaction := mkReaction (replicate 1000 "A1") "A2" "bulk" "wide".
Definition wide3 : Reaction := mkReaction (replicate 1000 "A2") "A3" "bulk" "wide".
Definition wide4 : Reaction := mkReaction (replicate 1000 "A3") "A4" "bulk" "wide".

Definition add_rule (r : Reaction) (d : OrganicRouteDesigner) : OrganicRouteDesigner :=
  _add_reaction (reactants r) (product r) (condition r) (reaction_type r) d.

Definition wide_designer : OrganicRouteDesigner :=
  set_starting_materials {["S"]}
    (add_rule wide4 (add_rule wide3 (add_rule wide2 (add_rule wide1
      (_add_compound "A4" "a4" (_add_compound "A3" "a3" (_add_compound "A2" "a2"
        (_add_compound "A1" "a1" (_add_compound "S" "s" empty_designer))))))))).

(** A knowledge base with exactly one compound one step away ([X]) and one
    two steps away ([Y]); the farther one is registered first. *)
Definition ranking_designer : OrganicRouteDesigner :=
  set_starting_materials {["S"]}
    (_add_reaction ["X"] "Y" "second" "chain"
      (_add_reaction ["S"] "X" "first" "chain"
        (_add_compound "S" "s"
          (_add_compound "X" "x"
            (_add_compound "Y" "y" empty_designer))))).

(** The compounds of the registry. *)
Definition compounds (d : OrganicRouteDesigner) : gset string :=
  list_to_set (map fst (id_to_name d)).

(** ** The remaining operations of the class and its caller *)

(** The bytewise order of strings, which on UTF-8 is Python's order of
    [str] by code point. *)
Definition string_le (a b : string) : Prop := String.leb a b = true.

#[global] Instance string_le_dec : RelDecision string_le.
Proof. intros a b. unfold string_le. apply _. Defined.

(** [sorted(self.name_to_id.keys())]. The keys are distinct, so the sorted
    list does not depend on the order in which the dict yields them. *)
Definition all_compound_names (d : OrganicRouteDesigner) : list string :=
  merge_sort string_le (elements (dom (name_to_id d))).

(** The list [lines] that [generate_demo_file] builds (lines 218-231); the
    file receives [join newline] of it. *)
Definition demo_block (d : OrganicRouteDesigner) (idx : nat) (target : string)
    : list string :=
  [ "## 示例 " +:+ pretty idx +:+ ": " +:+ target;
    "```";
    route_to_text d target (design_route d target);
    "```";
    "" ].

Definition demo_file_lines (d : OrganicRouteDesigner) (count : Z) : list string :=
  let targets := demo_targets d count in
  [ "# 有机合成路线自动设计：示例集";
    "";
    "共展示 " +:+ pretty (length targets) +:+ " 个目标产物的自动规划结果。";
    "" ]
  ++ concat (imap (fun i target => demo_block d (S i) target) targets).

Definition demo_file_text (d : OrganicRouteDesigner) (count : Z) : string :=
  join newline (demo_file_lines d count).

(** The three kinds of value [design_route] returns and [route_to_text]
    tells apart (lines 192-197). *)
Inductive outcome : Type := UnknownTarget | NoRoute | Steps.

Definition outcome_of (route : option (list Reaction)) : outcome :=
  match route with
  | None => UnknownTarget
  | Some [] => NoRoute
  | Some (_ :: _) => Steps
  end.

(** Every registered id is found again under its display name. *)
Definition registry_ok (d : OrganicRouteDesigner) : Prop :=
  forall cid name, (cid, name) ∈ id_to_name d -> compound_id d name = Some cid.

(** A synthesis tree of height at most [height] for [target] under the
    ancestors [path], with [n] rule applications: a starting material is a
    leaf; any other compound, not among its ancestors, is made by one rule
    producing it from synthesis trees of all the rule's inputs. *)
Fixpoint derives (d : OrganicRouteDesigner) (height : nat) (path : list string)
    (target : string) (n : Z) : Prop :=
  match height with
  | O => False
  | S h =>
      (target ∈ starting_materials d /\ n = 0)
      \/ ((target ∉ starting_materials d) /\ (target ∉ path)
          /\ exists rxn sizes,
               rxn ∈ rules_producing d target
               /\ Forall2 (derives d h (path ++ [target])) (reactants rxn) sizes
               /\ n = 1 + sum_Z sizes)
  end.

(** ** The recursion limit of the interpreter

    [_best_cost] and [_collect_steps] call themselves (lines 155 and 171)
    once per compound on the path from the target, and Python ends a
    recursion that nests deeper than its recursion limit by raising
    [RecursionError], which [design_route] does not catch. [limit] is the
    number of nested calls of a recursive method that the limit leaves room
    for; it is the fuel of both searches, so that running out of it is
    running into the limit. The outer [None] of the result is the
    exception, [Some r] is the value [r] returned. The call of [_best_cost]
    in [_collect_steps] (line 167) repeats a call that [design_route] or
    the search under it made before, so it returns its stored result
    without recursion. *)
Definition design_route_limited (limit : nat) (d : OrganicRouteDesigner)
    (target_name : string) : option (option (list Reaction)) :=
  match compound_id d target_name with
  | None => Some None
  | Some cid =>
      match best_cost_fuel d limit cid [] with
      | None => None
      | Some cr =>
          if bool_decide (INF <= cr.1) then Some (Some [])
          else
            match collect_steps_fuel d limit cid (∅, []) [] with
            | None => None
            | Some res => Some (Some (if res.1 then res.2.2 else []))
            end
      end
  end.

(** A chain of [n] rules: [x0] is the starting material and each
    [x(i+1)] is made from [xi] alone. Names and ids coincide. *)
Definition chain_id (i : nat) : string := "x" +:+ pretty i.

Definition chain_designer (n : nat) : OrganicRouteDesigner :=
  set_starting_materials {[chain_id 0]}
    (foldl (fun d i =>
              _add_reaction [chain_id i] (chain_id (S i)) "step" "chain"
                (_add_compound (chain_id (S i)) (chain_id (S i)) d))
       (_add_compound (chain_id 0) (chain_id 0) empty_designer)
       (seq 0 n)).

(** ** The cache of [_best_cost]

    [_best_cost] is wrapped in [lru_cache(maxsize=None)] (line 143): a call
    whose arguments [(self, target, stack)] were seen before returns the
    stored result without running the body, every other call runs the body
    and stores its result, and nothing is ever dropped from the store, not
    even when the knowledge base of the instance is changed afterwards.
    [best_cost_cache] is the store of one instance; the recursive calls at
    line 155 go through the wrapper as well, so the store is threaded
    through the loops. *)
Definition best_cost_cache : Type := gmap (string * list string) cost_result.

Section Memo.
Variable d : OrganicRouteDesigner.

(** The loop over [rxn.reactants] (lines 152-159) with the store. *)
Fixpoint reactants_total_memo
    (rec : string -> best_cost_cache -> option (cost_result * best_cost_cache))
    (rs : list string) (total : Z) (c : best_cost_cache)
    : option (option Z * best_cost_cache) :=
  match rs with
  | [] => Some (Some total, c)
  | reactant :: rs' =>
      match rec reactant c with
      | None => None
      | Some (cr, c1) =>
          if bool_decide (INF <= cr.1) then Some (None, c1)
          else reactants_total_memo rec rs' (total + cr.1) c1
      end
  end.

(** The loop over the reactions producing the target (lines 151-161) with
    the store. *)
Fixpoint best_loop_memo
    (rec : string -> best_cost_cache -> option (cost_result * best_cost_cache))
    (rxns : list Reaction) (best : cost_result) (c : best_cost_cache)
    : option (cost_result * best_cost_cache) :=
  match rxns with
  | [] => Some (best, c)
  | rxn :: rest =>
      match reactants_total_memo rec (reactants rxn) 1 c with
      | None => None
      | Some (Some total, c1) =>
          if bool_decide (total < best.1) then best_loop_memo rec rest (total, Some rxn) c1
          else best_loop_memo rec rest best c1
      | Some (None, c1) => best_loop_memo rec rest best c1
      end
  end.

(** The wrapped method: a stored result is returned as it is; otherwise
    the body of [_best_cost] runs and its result is stored. *)
Definition best_cost_memo_body
    (rec : string -> list string -> best_cost_cache -> option (cost_result * best_cost_cache))
    (target : string) (stack : list string) (c : best_cost_cache)
    : option (cost_result * best_cost_cache) :=
  match c !! (target, stack) with
  | Some v => Some (v, c)
  | None =>
      let run :=
        if bool_decide (target ∈ starting_materials d) then Some ((0, None), c)
        else if bool_decide (target ∈ stack) then Some ((INF, None), c)
        else best_loop_memo (fun r c' => rec r (stack ++ [target]) c')
               (rules_producing d target) (INF, None) c in
      match run with
      | None => None
      | Some (v, c1) => Some (v, <[(target, stack) := v]> c1)
      end
  end.

(** As for [best_cost_fuel], [fuel] bounds the depth of the recursion and
    [None] means the bound was hit. *)
Fixpoint best_cost_memo (fuel : nat)
    : string -> list string -> best_cost_cache -> option (cost_result * best_cost_cache) :=
  match fuel with
  | O => fun _ _ _ => None
  | S f => best_cost_memo_body (best_cost_memo f)
  end.
End Memo.

(** Every stored result is the result of [_best_cost] on the knowledge
    base [d]: the state of the store of an instance that has been queried
    but not changed. *)
Definition cache_ok (d : OrganicRouteDesigner) (c : best_cost_cache) : Prop :=
  map_Forall (fun k v => v = _best_cost d k.1 k.2) c.

(** Every stored cost lies between the cost on [d'] and the cost on [d]. *)
Definition cache_between (d' d : OrganicRouteDesigner) (c : best_cost_cache) : Prop :=
  map_Forall (fun k (v : cost_result) =>
                minimum_cost d' k.1 k.2 <= v.1 <= minimum_cost d k.1 k.2) c.

(** [d'] has all the starting materials and all the rules of [d]. *)
Definition extends (d d' : OrganicRouteDesigner) : Prop :=
  (forall x, x ∈ starting_materials d -> x ∈ starting_materials d')
  /\ (forall t r, r ∈ rules_producing d t -> r ∈ rules_producing d' t).

(** The store of [ranking_designer] after the query for [Y] from the empty
    path, and the same knowledge base with a direct rule for [Y] added. *)
Definition ranking_cache : best_cost_cache :=
  default ∅ (snd <$> best_cost_memo ranking_designer (depth_bound ranking_designer) "Y" [] ∅).

Definition shortcut_designer : OrganicRouteDesigner :=
  _add_reaction ["S"] "Y" "direct" "chain" ranking_designer.

(** Closed decidable facts about a concrete knowledge base, by evaluation. *)
Ltac by_eval := apply (bool_decide_unpack _); vm_compute; exact I.

(** * Properties *)

(** ** Termination of the search *)

Section BestCostFuel.
Variable d : OrganicRouteDesigner.

Lemma reactants_total_mono rec rec' rs total v :
  (forall r x, rec r = Some x -> rec' r = Some x) ->
  reactants_total rec rs total = Some v ->
  reactants_total rec' rs total = Some v.
Proof.
  intros Hle. revert total. induction rs as [|r rs IH]; intros total; simpl; [done|].
  destruct (rec r) as [cr|] eqn:E; simpl; [|done].
  rewrite (Hle _ _ E). simpl. case_bool_decide; [done|]. apply IH.
Qed.

Lemma best_loop_mono rec rec' rxns best v :
  (forall r x, rec r = Some x -> rec' r = Some x) ->
  best_loop rec rxns best = Some v ->
  best_loop rec' rxns best = Some v.
Proof.
  intros Hle. revert best. induction rxns as [|rxn rest IH]; intros best; simpl; [done|].
  destruct (reactants_total rec (reactants rxn) 1) as [t|] eqn:E; simpl; [|done].
  rewrite (reactants_total_mono _ _ _ _ _ Hle E). simpl.
  destruct t as [total|]; [case_bool_decide|]; apply IH.
Qed.

Lemma best_cost_fuel_mono fuel fuel' target stack v :
  (fuel <= fuel')%nat ->
  best_cost_fuel d fuel target stack = Some v ->
  best_cost_fuel d fuel' target stack = Some v.
Proof.
  revert fuel' target stack v.
  induction fuel as [|f IH]; intros fuel' target stack v Hle; simpl; [done|].
  destruct fuel' as [|f']; [lia|]. simpl. unfold best_cost_body.
  repeat case_bool_decide; try done.
  apply best_loop_mono. intros r x. apply IH. lia.
Qed.

Lemma reactants_total_is_Some rec rs total :
  (forall r, is_Some (rec r)) -> is_Some (reactants_total rec rs total).
Proof.
  intros Hrec. revert total. induction rs as [|r rs IH]; intros total; simpl; [eauto|].
  destruct (Hrec r) as [cr ->]. simpl. case_bool_decide; eauto.
Qed.

Lemma best_loop_is_Some rec rxns best :
  (forall r, is_Some (rec r)) -> is_Some (best_loop rec rxns best).
Proof.
  intros Hrec. revert best. induction rxns as [|rxn rest IH]; intros best; simpl; [eauto|].
  destruct (reactants_total_is_Some rec (reactants rxn) 1 Hrec) as [t ->]. simpl.
  destruct t as [total|]; [case_bool_decide|]; apply IH.
Qed.

Lemma rules_producing_nonempty target :
  rules_producing d target <> [] -> target ∈ dom (product_to_reactions d).
Proof.
  unfold rules_producing. intros H. apply elem_of_dom.
  destruct (product_to_reactions d !! target); [eauto|done].
Qed.

Lemma remaining_push target stack :
  target ∉ stack -> target ∈ dom (product_to_reactions d) ->
  (remaining d (stack ++ [target]) < remaining d stack)%nat.
Proof.
  intros Hs Hd. unfold remaining. apply subset_size.
  apply strict_spec_alt. split.
  - intros x. rewrite !elem_of_difference, !elem_of_list_to_set, elem_of_app. tauto.
  - intros Heq. assert (Hin : target ∈ dom (product_to_reactions d) ∖ list_to_set stack).
    { rewrite elem_of_difference, elem_of_list_to_set. done. }
    rewrite <- Heq in Hin. revert Hin.
    rewrite elem_of_difference, elem_of_list_to_set, elem_of_app, list_elem_of_singleton.
    tauto.
Qed.

Lemma remaining_le_bound stack : (remaining d stack < depth_bound d)%nat.
Proof.
  unfold remaining, depth_bound. apply Nat.lt_succ_r, subseteq_size.
  intros x Hx. by apply elem_of_difference in Hx as [? _].
Qed.

Lemma best_cost_fuel_is_Some fuel target stack :
  (remaining d stack < fuel)%nat -> is_Some (best_cost_fuel d fuel target stack).
Proof.
  revert target stack. induction fuel as [|f IH]; intros target stack Hlt; [lia|].
  simpl. unfold best_cost_body. repeat case_bool_decide; eauto.
  destruct (rules_producing d target) as [|rxn rest] eqn:E; [simpl; eauto|].
  apply best_loop_is_Some. intros r. apply IH.
  assert ((remaining d (stack ++ [target]) < remaining d stack)%nat); [|lia].
  apply remaining_push; [done|]. apply rules_producing_nonempty. by rewrite E.
Qed.

Lemma best_cost_fuel_enough fuel target stack :
  (remaining d stack < fuel)%nat ->
  best_cost_fuel d fuel target stack = Some (_best_cost d target stack).
Proof.
  intros Hlt. unfold _best_cost.
  destruct (best_cost_fuel_is_Some fuel target stack Hlt) as [v Hv].
  destruct (best_cost_fuel_is_Some (depth_bound d) target stack (remaining_le_bound stack))
    as [w Hw].
  rewrite Hv, Hw. simpl. f_equal.
  pose proof (best_cost_fuel_mono _ (Nat.max fuel (depth_bound d)) _ _ _
                (Nat.le_max_l _ _) Hv) as H1.
  pose proof (best_cost_fuel_mono _ (Nat.max fuel (depth_bound d)) _ _ _
                (Nat.le_max_r _ _) Hw) as H2.
  congruence.
Qed.
End BestCostFuel.

(** ** The recursive equation of [_best_cost] *)

Section BestCostEquation.
Variable d : OrganicRouteDesigner.

Lemma reactants_total_ext rec rec' rs total :
  (forall r, rec r = rec' r) -> reactants_total rec rs total = reactants_total rec' rs total.
Proof.
  intros Heq. revert total. induction rs as [|r rs IH]; intros total; simpl; [done|].
  rewrite Heq. destruct (rec' r) as [cr|]; simpl; [|done]. case_bool_decide; [done|apply IH].
Qed.

Lemma best_loop_ext rec rec' rxns best :
  (forall r, rec r = rec' r) -> best_loop rec rxns best = best_loop rec' rxns best.
Proof.
  intros Heq. revert best. induction rxns as [|rxn rest IH]; intros best; simpl; [done|].
  rewrite (reactants_total_ext rec rec' _ _ Heq).
  destruct (reactants_total rec' (reactants rxn) 1) as [[total|]|]; simpl; [|apply IH|done].
  case_bool_decide; apply IH.
Qed.

(** Running the body of the source with [_best_cost] itself for the
    recursive calls gives [_best_cost]. *)
Lemma best_cost_unfold target stack :
  best_cost_body d (fun t s => Some (_best_cost d t s)) target stack
  = Some (_best_cost d target stack).
Proof.
  rewrite <- (best_cost_fuel_enough d (S (depth_bound d)) target stack)
    by (pose proof (remaining_le_bound d stack); lia).
  change (best_cost_fuel d (S (depth_bound d)) target stack)
    with (best_cost_body d (best_cost_fuel d (depth_bound d)) target stack).
  unfold best_cost_body. repeat case_bool_decide; try done.
  apply best_loop_ext. intros r. symmetry.
  apply best_cost_fuel_enough, remaining_le_bound.
Qed.

Lemma reactants_total_pure (f : string -> cost_result) rs total :
  reactants_total (fun r => Some (f r)) rs total
  = Some (if forallb (fun c => bool_decide (c < INF)) (map (fun r => (f r).1) rs)
          then Some (total + sum_Z (map (fun r => (f r).1) rs)) else None).
Proof.
  revert total. induction rs as [|r rs IH]; intros total; simpl.
  - do 2 f_equal. unfold sum_Z. simpl. lia.
  - case_bool_decide as H1; case_bool_decide as H2; try lia; simpl; [done|].
    rewrite IH. destruct (forallb _ _); [|done]. do 2 f_equal. unfold sum_Z. simpl. lia.
Qed.

Lemma best_loop_pure (f : string -> cost_result) rxns best :
  best_loop (fun r => Some (f r)) rxns best
  = Some (pick_best
            (fun rxn =>
               if forallb (fun c => bool_decide (c < INF)) (map (fun r => (f r).1) (reactants rxn))
               then Some (1 + sum_Z (map (fun r => (f r).1) (reactants rxn))) else None)
            rxns best).
Proof.
  revert best. induction rxns as [|rxn rest IH]; intros best; simpl; [done|].
  rewrite reactants_total_pure. simpl.
  destruct (forallb _ _); [case_bool_decide|]; apply IH.
Qed.

Lemma best_cost_sm target stack :
  target ∈ starting_materials d -> _best_cost d target stack = (0, None).
Proof.
  intros H. pose proof (best_cost_unfold target stack) as E.
  unfold best_cost_body in E. rewrite bool_decide_eq_true_2 in E by done. congruence.
Qed.

Lemma best_cost_cycle target stack :
  target ∉ starting_materials d -> target ∈ stack -> _best_cost d target stack = (INF, None).
Proof.
  intros H1 H2. pose proof (best_cost_unfold target stack) as E.
  unfold best_cost_body in E.
  rewrite bool_decide_eq_false_2, bool_decide_eq_true_2 in E by done. congruence.
Qed.

Lemma best_cost_rules target stack :
  target ∉ starting_materials d -> target ∉ stack ->
  _best_cost d target stack
  = pick_best (rule_cost d target stack) (rules_producing d target) (INF, None).
Proof.
  intros H1 H2. pose proof (best_cost_unfold target stack) as E.
  unfold best_cost_body in E.
  rewrite !bool_decide_eq_false_2 in E by done.
  rewrite (best_loop_pure (fun r => _best_cost d r (stack ++ [target]))) in E.
  injection E as <-. reflexivity.
Qed.

(** What the running best holds after the loop. *)
Lemma pick_best_spec rc rxns best :
  (pick_best rc rxns best = best
   /\ forall rxn c, rxn ∈ rxns -> rc rxn = Some c -> best.1 <= c)
  \/ (exists l1 rxn l2 c,
        rxns = l1 ++ rxn :: l2 /\ pick_best rc rxns best = (c, Some rxn)
        /\ rc rxn = Some c /\ c < best.1
        /\ (forall r' c', r' ∈ l1 -> rc r' = Some c' -> c < c')
        /\ (forall r' c', r' ∈ l2 -> rc r' = Some c' -> c <= c')).
Proof.
  revert best. induction rxns as [|rxn rest IH]; intros best; simpl.
  - left. split; [done|]. intros ? ? H. by apply elem_of_nil in H.
  - assert (Hkeep : (forall c, rc rxn = Some c -> best.1 <= c) ->
      (pick_best rc rest best = best
       /\ forall r c, r ∈ rxn :: rest -> rc r = Some c -> best.1 <= c)
      \/ (exists l1 r l2 c,
            rxn :: rest = l1 ++ r :: l2 /\ pick_best rc rest best = (c, Some r)
            /\ rc r = Some c /\ c < best.1
            /\ (forall r' c', r' ∈ l1 -> rc r' = Some c' -> c < c')
            /\ (forall r' c', r' ∈ l2 -> rc r' = Some c' -> c <= c'))).
    { intros Hge. destruct (IH best) as [[E Hall]|(l1 & r & l2 & c & -> & E & Hr & Hlt & Hb & Ha)].
      - left. split; [done|]. intros r c [->|Hin]%elem_of_cons; eauto.
      - right. exists (rxn :: l1), r, l2, c. split_and!; try done.
        intros r' c' [->|Hin]%elem_of_cons Hc'; [|eauto].
        specialize (Hge _ Hc'). lia. }
    destruct (rc rxn) as [total|] eqn:Etot; [|apply Hkeep; congruence].
    case_bool_decide as Hlt; [|apply Hkeep; intros c [= <-]; lia].
    right.
    destruct (IH (total, Some rxn)) as [[E Hall]|(l1 & r & l2 & c & -> & E & Hr & Hlt' & Hb & Ha)].
    + exists [], rxn, rest, total. split_and!; try done.
      intros ? ? H. by apply elem_of_nil in H.
    + simpl in Hlt'. exists (rxn :: l1), r, l2, c. split_and!; try done; [lia|].
      intros r' c' [->|Hin]%elem_of_cons Hc'; [|eauto].
      rewrite Etot in Hc'. injection Hc' as <-. done.
Qed.
End BestCostEquation.

(** ** Consequences for the chosen rule *)

Section BestCostChoice.
Variable d : OrganicRouteDesigner.

Lemma best_cost_cases target stack :
  target ∉ starting_materials d -> target ∉ stack ->
  (_best_cost d target stack = (INF, None)
   /\ forall rxn c, rxn ∈ rules_producing d target ->
        rule_cost d target stack rxn = Some c -> INF <= c)
  \/ (exists l1 rxn l2 c,
        rules_producing d target = l1 ++ rxn :: l2
        /\ _best_cost d target stack = (c, Some rxn)
        /\ rule_cost d target stack rxn = Some c /\ c < INF
        /\ (forall r' c', r' ∈ l1 -> rule_cost d target stack r' = Some c' -> c < c')
        /\ (forall r' c', r' ∈ l2 -> rule_cost d target stack r' = Some c' -> c <= c')).
Proof.
  intros H1 H2. rewrite (best_cost_rules d target stack H1 H2).
  apply (pick_best_spec (rule_cost d target stack) (rules_producing d target) (INF, None)).
Qed.

Lemma best_cost_chosen target stack rxn :
  (_best_cost d target stack).2 = Some rxn ->
  (target ∉ starting_materials d) /\ (target ∉ stack)
  /\ rxn ∈ rules_producing d target
  /\ exists c, _best_cost d target stack = (c, Some rxn) /\ c < INF
               /\ rule_cost d target stack rxn = Some c.
Proof.
  intros H.
  destruct (decide (target ∈ starting_materials d)) as [Hsm|Hsm].
  { rewrite best_cost_sm in H by done. done. }
  destruct (decide (target ∈ stack)) as [Hst|Hst].
  { rewrite best_cost_cycle in H by done. done. }
  destruct (best_cost_cases target stack Hsm Hst)
    as [[E _]|(l1 & r & l2 & c & El & E & Hc & Hlt & _)].
  { rewrite E in H. done. }
  rewrite E in H. injection H as ->. split_and!; try done.
  - rewrite El. set_solver.
  - eauto.
Qed.

Lemma best_cost_finite target stack :
  target ∉ starting_materials d -> minimum_cost d target stack < INF ->
  exists rxn, snd (_best_cost d target stack) = Some rxn.
Proof.
  intros Hsm Hlt. unfold minimum_cost in Hlt.
  destruct (decide (target ∈ stack)) as [Hst|Hst].
  { rewrite best_cost_cycle in Hlt by done. simpl in Hlt. lia. }
  destruct (best_cost_cases target stack Hsm Hst) as [[E _]|(l1 & r & l2 & c & El & E & _)].
  - rewrite E in Hlt. simpl in Hlt. lia.
  - rewrite E. eauto.
Qed.

Lemma rule_cost_Some target stack rxn c :
  rule_cost d target stack rxn = Some c ->
  (forall r, r ∈ reactants rxn -> minimum_cost d r (stack ++ [target]) < INF)
  /\ c = 1 + sum_Z (map (fun r => minimum_cost d r (stack ++ [target])) (reactants rxn)).
Proof.
  unfold rule_cost.
  destruct (forallb _ _) eqn:E; [|done]. intros [= <-]. split; [|done].
  intros r Hr. rewrite forallb_forall in E.
  assert (Hin : In (minimum_cost d r (stack ++ [target]))
                   (map (fun r => minimum_cost d r (stack ++ [target])) (reactants rxn))).
  { apply in_map_iff. exists r. split; [done|]. by apply list_elem_of_In. }
  apply E in Hin. by apply bool_decide_eq_true in Hin.
Qed.

Lemma index_ok_product target rxn :
  index_ok d -> rxn ∈ rules_producing d target -> product rxn = target.
Proof.
  intros Hidx Hin. rewrite (Hidx target) in Hin.
  by apply list_elem_of_filter in Hin as [? _].
Qed.
End BestCostChoice.

(** ** Step extraction *)

Section Collect.
Variable d : OrganicRouteDesigner.

Lemma dependency_ordered_nil : dependency_ordered d [].
Proof. intros l1 r l2 E. by destruct l1. Qed.

Lemma dependency_ordered_snoc l rxn :
  dependency_ordered d l ->
  (forall x, x ∈ reactants rxn ->
     x ∈ starting_materials d \/ exists r', r' ∈ l /\ product r' = x) ->
  dependency_ordered d (l ++ [rxn]).
Proof.
  intros Hl Hr l1 r l2 E x Hx.
  destruct l2 as [|z l2 _] using rev_ind.
  - apply app_inj_tail in E as [-> ->]. by apply Hr.
  - rewrite app_comm_cons, app_assoc in E. apply app_inj_tail in E as [-> ->].
    by apply (Hl l1 r l2).
Qed.

Lemma collect_loop_ok rec rs stack st :
  (forall r st0, r ∈ rs -> seen_ok st0 ->
     exists st1, rec r st0 = Some (true, st1) /\ collect_post d r stack st0 st1) ->
  seen_ok st ->
  exists st', collect_loop rec rs st = Some (true, st')
              /\ collect_loop_post d rs stack st st'.
Proof.
  revert st. induction rs as [|r rs IH]; intros st Hrec Hst.
  - exists st. split; [done|]. split; [done|]. exists []. rewrite app_nil_r.
    split_and!; try done. intros _. split_and!; try done.
    + intros x Hx. by apply elem_of_nil in Hx.
    + intros x Hx. by apply elem_of_nil in Hx.
  - destruct (Hrec r st (list_elem_of_here _ _) Hst)
      as (st1 & E1 & Hok1 & ext1 & Hext1 & Hlen1 & Hnd1 & Hidx1).
    destruct (IH st1) as (st' & E' & Hok' & ext2 & Hext2 & Hlen2 & Hnd2 & Hidx2); [|done|].
    { intros r0 st0 Hr0. apply Hrec. by apply list_elem_of_further. }
    exists st'. split; [simpl; by rewrite E1|]. split; [done|].
    exists (ext1 ++ ext2). split_and!.
    + by rewrite Hext2, Hext1, app_assoc.
    + rewrite length_app. unfold sum_Z in *. simpl. lia.
    + eauto.
    + intros Hidx. destruct (Hidx1 Hidx) as (Hd1 & Hp1 & Hs1 & _).
      destruct (Hidx2 Hidx) as (Hd2 & Hp2 & Hs2). split_and!.
      * eauto.
      * intros x [->|Hx]%elem_of_cons Hsm; [|eauto].
        destruct (Hp1 Hsm) as (r' & Hr' & Hpr). exists r'. split; [|done].
        rewrite Hext2. apply elem_of_app. by left.
      * intros r0 [H|H]%elem_of_app; eauto.
Qed.

(** With enough fuel, [_collect_steps] succeeds on every compound of
    finite cost and extends [ordered] as [collect_post] says. *)
Lemma collect_fuel_ok fuel target st stack :
  (remaining d stack < fuel)%nat ->
  seen_ok st ->
  minimum_cost d target stack < INF ->
  exists st', collect_steps_fuel d fuel target st stack = Some (true, st')
              /\ collect_post d target stack st st'.
Proof.
  revert target st stack.
  induction fuel as [|fuel IH]; intros target st stack Hfuel Hst Hcost; [lia|].
  change (collect_steps_fuel d (S fuel) target st stack)
    with (collect_body d (collect_steps_fuel d fuel) target st stack).
  unfold collect_body. case_bool_decide as Hsm.
  - exists st. split; [done|]. split; [done|]. exists []. rewrite app_nil_r.
    split_and!; try done.
    + unfold minimum_cost. rewrite best_cost_sm by done. simpl. lia.
    + intros _. split_and!; try done. intros x Hx. by apply elem_of_nil in Hx.
  - destruct (best_cost_finite d target stack Hsm Hcost) as [rxn Hrxn]. rewrite Hrxn.
    destruct (best_cost_chosen d target stack rxn Hrxn)
      as (_ & Hns & Hin & c & E & Hc & Hrc).
    destruct (rule_cost_Some d target stack rxn c Hrc) as [Hfeas Hsum].
    assert (Hmc : minimum_cost d target stack = c) by (unfold minimum_cost; by rewrite E).
    destruct (collect_loop_ok
                (fun r st' => collect_steps_fuel d fuel r st' (stack ++ [target]))
                (reactants rxn) (stack ++ [target]) st)
      as (st1 & E1 & Hok1 & ext1 & Hext1 & Hlen1 & Hnd1 & Hidx1); [|done|].
    { intros r st0 Hr Hst0. apply IH; [|done|by apply Hfeas].
      assert ((remaining d (stack ++ [target]) < remaining d stack)%nat); [|lia].
      apply remaining_push; [done|]. apply rules_producing_nonempty.
      intros Hnil. rewrite Hnil in Hin. by apply elem_of_nil in Hin. }
    rewrite E1. destruct st1 as [seen ordered]. simpl in Hext1, Hnd1, Hidx1.
    pose proof (Hok1 rxn) as Hseen_iff. simpl in Hseen_iff.
    case_bool_decide as Hseen.
    + exists (seen, ordered). split; [done|]. split; [done|]. exists ext1.
      split_and!; [done|lia|done|]. intros Hidx.
      destruct (Hidx1 Hidx) as (Hd & Hp & Hs).
      pose proof (index_ok_product d target rxn Hidx Hin) as Hprod.
      split_and!.
      * done.
      * intros _. exists rxn. split; [by apply Hseen_iff|done].
      * intros r Hr Hbad. apply (Hs r Hr). apply elem_of_app. by left.
      * intros _ Hnone. exfalso. apply Hseen_iff in Hseen. simpl in Hseen.
        rewrite Hext1 in Hseen. apply elem_of_app in Hseen as [Hold|Hnew].
        -- by apply (Hnone rxn).
        -- apply (Hs rxn Hnew). rewrite Hprod. apply elem_of_app. right.
           apply list_elem_of_here.
    + exists (seen ∪ {[rxn]}, ordered ++ [rxn]). split; [done|]. split.
      * intros r. simpl. rewrite elem_of_union, elem_of_singleton, elem_of_app,
          list_elem_of_singleton. by rewrite (Hok1 r).
      * exists (ext1 ++ [rxn]). simpl.
        pose proof (index_ok_product d target rxn) as Hprod.
        split_and!.
        -- by rewrite Hext1, app_assoc.
        -- rewrite length_app. simpl. lia.
        -- intros Hnd. apply NoDup_app. split_and!; [eauto| |apply NoDup_singleton].
           intros x Hx Hx'. apply list_elem_of_singleton in Hx' as ->.
           by apply Hseen, Hseen_iff.
        -- intros Hidx. destruct (Hidx1 Hidx) as (Hd & Hp & Hs). split_and!.
           ++ intros Hdep. apply dependency_ordered_snoc; [eauto|]. intros x Hx.
              destruct (decide (x ∈ starting_materials d)); [by left|right; eauto].
           ++ intros _. exists rxn. split; [|eauto].
              apply elem_of_app. right. apply list_elem_of_here.
           ++ intros r [Hr|Hr]%elem_of_app.
              ** intros Hbad. apply (Hs r Hr). apply elem_of_app. by left.
              ** apply list_elem_of_singleton in Hr as ->. by rewrite Hprod.
           ++ intros _ _. exists ext1, rxn. eauto.
Qed.
End Collect.

(** ** [design_route] *)

Section DesignRoute.
Variable d : OrganicRouteDesigner.

Lemma seen_ok_empty : seen_ok (∅, []).
Proof. intros r. simpl. rewrite elem_of_empty, elem_of_nil. done. Qed.

Lemma collect_steps_enough fuel target st stack res :
  collect_steps_fuel d fuel target st stack = Some res ->
  fuel = depth_bound d -> _collect_steps d target st stack = res.
Proof. intros H ->. unfold _collect_steps. by rewrite H. Qed.

(** The three outcomes of [design_route]. *)
Lemma design_route_cases target_name :
  (compound_id d target_name = None /\ design_route d target_name = None)
  \/ (exists cid, compound_id d target_name = Some cid
        /\ INF <= minimum_cost d cid [] /\ design_route d target_name = Some [])
  \/ (exists cid st',
        compound_id d target_name = Some cid
        /\ minimum_cost d cid [] < INF
        /\ collect_steps_fuel d (depth_bound d) cid (∅, []) [] = Some (true, st')
        /\ design_route d target_name = Some st'.2
        /\ collect_post d cid [] (∅, []) st').
Proof.
  unfold design_route. destruct (compound_id d target_name) as [cid|]; [|by left].
  right. fold (minimum_cost d cid []). case_bool_decide as Hc.
  - left. eauto.
  - right.
    destruct (collect_fuel_ok d (depth_bound d) cid (∅, []) [])
      as (st' & E & Hpost); [apply remaining_le_bound|apply seen_ok_empty|lia|].
    exists cid, st'. rewrite (collect_steps_enough _ _ _ _ _ E eq_refl). simpl.
    split_and!; try done. lia.
Qed.

Lemma simulate_complete steps : forall avail,
  (forall l1 r l2, steps = l1 ++ r :: l2 ->
     forall x, x ∈ reactants r -> x ∈ avail \/ exists r', r' ∈ l1 /\ product r' = x) ->
  simulate avail steps = true.
Proof.
  induction steps as [|r rest IH]; intros avail H; simpl; [done|].
  apply andb_true_intro. split.
  - apply forallb_forall. intros x Hx%list_elem_of_In. apply bool_decide_eq_true_2.
    destruct (H [] r rest eq_refl x Hx) as [?|(r' & Hr' & _)]; [done|].
    by apply elem_of_nil in Hr'.
  - apply IH. intros l1 r2 l2 -> x Hx.
    destruct (H (r :: l1) r2 l2 eq_refl x Hx) as [?|(r' & Hr' & Hp)].
    + left. apply elem_of_union. by left.
    + apply elem_of_cons in Hr' as [->|Hr'].
      * left. apply elem_of_union. right. by apply elem_of_singleton.
      * right. eauto.
Qed.
End DesignRoute.

(** ** The traversal without the membership test *)

Section Expansion.
Variable d : OrganicRouteDesigner.

Lemma dedup_onto_app acc l1 l2 :
  dedup_onto acc (l1 ++ l2) = dedup_onto (dedup_onto acc l1) l2.
Proof. unfold dedup_onto. apply foldl_app. Qed.

Lemma dedup_onto_cons acc x l :
  dedup_onto acc (x :: l)
  = dedup_onto (if bool_decide (x ∈ acc) then acc else acc ++ [x]) l.
Proof. reflexivity. Qed.

Lemma dedup_onto_length acc l :
  (length (dedup_onto acc l) <= length acc + length l)%nat.
Proof.
  revert acc. induction l as [|x l IH]; intros acc; [simpl; lia|].
  rewrite dedup_onto_cons. case_bool_decide.
  - specialize (IH acc). simpl. lia.
  - specialize (IH (acc ++ [x])). rewrite length_app in IH. simpl in *. lia.
Qed.

Lemma dedup_onto_length_eq acc l :
  length (dedup_onto acc l) = (length acc + length l)%nat
  <-> NoDup l /\ forall x, x ∈ l -> x ∉ acc.
Proof.
  revert acc. induction l as [|x l IH]; intros acc.
  - simpl. split; [|lia]. intros _. split; [constructor|].
    intros x Hx. by apply elem_of_nil in Hx.
  - rewrite dedup_onto_cons. case_bool_decide as Hx.
    + pose proof (dedup_onto_length acc l) as Hle.
      split; [simpl; lia|]. intros [_ Hno]. exfalso.
      apply (Hno x); [apply list_elem_of_here|done].
    + specialize (IH (acc ++ [x])). rewrite length_app in IH. simpl in IH.
      rewrite NoDup_cons. simpl length. split.
      * intros Hlen. destruct IH as [IH _].
        destruct IH as [Hnd Hno]; [lia|]. split_and!; [|done|].
        -- intros Hin. apply (Hno x Hin). apply elem_of_app. right. apply list_elem_of_here.
        -- intros y [->|Hy]%elem_of_cons; [done|].
           intros Hacc. apply (Hno y Hy). apply elem_of_app. by left.
      * intros [[Hxl Hnd] Hno]. destruct IH as [_ IH].
        rewrite IH; [lia|]. split; [done|]. intros y Hy [Hacc|Hyx]%elem_of_app.
        -- apply (Hno y); [by apply list_elem_of_further|done].
        -- apply list_elem_of_singleton in Hyx as ->. done.
Qed.

Lemma collect_loop_expand rec (e : string -> list Reaction) rs st st' :
  (forall r st0 st1, r ∈ rs -> seen_ok st0 -> rec r st0 = Some (true, st1) ->
     seen_ok st1 /\ st1.2 = dedup_onto st0.2 (e r)) ->
  seen_ok st ->
  collect_loop rec rs st = Some (true, st') ->
  seen_ok st' /\ st'.2 = dedup_onto st.2 (flat_map e rs).
Proof.
  revert st. induction rs as [|r rs IH]; intros st Hrec Hst; simpl.
  - intros [= <-]. done.
  - destruct (rec r st) as [[[] st1]|] eqn:E; try done. intros Hloop.
    destruct (Hrec r st st1 (list_elem_of_here _ _) Hst E) as [Hok1 Hord1].
    rewrite dedup_onto_app, <- Hord1. apply IH; [|done|done].
    intros r0 st0 st2 Hr0. apply Hrec. by apply list_elem_of_further.
Qed.

(** A successful [_collect_steps] appends the traversal to [ordered],
    skipping what is already there. *)
Lemma collect_fuel_expand fuel target st stack st' :
  seen_ok st ->
  collect_steps_fuel d fuel target st stack = Some (true, st') ->
  seen_ok st' /\ st'.2 = dedup_onto st.2 (expand_fuel d fuel target stack).
Proof.
  revert target st stack st'.
  induction fuel as [|fuel IH]; intros target st stack st' Hst; [done|].
  change (collect_steps_fuel d (S fuel) target st stack)
    with (collect_body d (collect_steps_fuel d fuel) target st stack).
  unfold collect_body. simpl expand_fuel. case_bool_decide as Hsm.
  - intros [= <-]. done.
  - destruct (_best_cost d target stack).2 as [rxn|]; [|done].
    destruct (collect_loop _ (reactants rxn) st) as [[[] [seen ordered]]|] eqn:E; try done.
    apply (collect_loop_expand _ (fun r => expand_fuel d fuel r (stack ++ [target]))) in E
      as [Hok1 Hord]; [|by intros; eapply IH|done].
    simpl in Hord. rewrite dedup_onto_app, <- Hord. simpl.
    pose proof (Hok1 rxn) as Hiff. simpl in Hiff.
    case_bool_decide as Hseen; intros [= <-]; simpl.
    + rewrite bool_decide_eq_true_2 by (by apply Hiff). done.
    + rewrite bool_decide_eq_false_2 by (by rewrite <- Hiff). split; [|done].
      intros r. simpl. rewrite elem_of_union, elem_of_singleton, elem_of_app,
        list_elem_of_singleton. by rewrite (Hok1 r).
Qed.

Lemma flat_map_length_sum (e : string -> list Reaction) (f : string -> Z) rs :
  (forall r, r ∈ rs -> Z.of_nat (length (e r)) = f r) ->
  Z.of_nat (length (flat_map e rs)) = sum_Z (map f rs).
Proof.
  induction rs as [|r rs IH]; intros H; simpl; [done|].
  rewrite length_app, Nat2Z.inj_add, (H r) by apply list_elem_of_here.
  unfold sum_Z in *. rewrite IH; [done|]. intros r0 Hr0. apply H.
  by apply list_elem_of_further.
Qed.

(** The traversal has as many entries as the minimum cost counts steps. *)
Lemma expand_fuel_length fuel target stack :
  (remaining d stack < fuel)%nat ->
  minimum_cost d target stack < INF ->
  Z.of_nat (length (expand_fuel d fuel target stack)) = minimum_cost d target stack.
Proof.
  revert target stack.
  induction fuel as [|fuel IH]; intros target stack Hfuel Hcost; [lia|].
  simpl. case_bool_decide as Hsm.
  - unfold minimum_cost. by rewrite best_cost_sm.
  - destruct (best_cost_finite d target stack Hsm Hcost) as [rxn Hrxn]. rewrite Hrxn.
    destruct (best_cost_chosen d target stack rxn Hrxn)
      as (_ & Hns & Hin & c & E & Hc & Hrc).
    destruct (rule_cost_Some d target stack rxn c Hrc) as [Hfeas Hsum].
    rewrite length_app, Nat2Z.inj_add.
    rewrite (flat_map_length_sum _ (fun r => minimum_cost d r (stack ++ [target]))).
    + unfold minimum_cost at 2. rewrite E. simpl. lia.
    + intros r Hr. apply IH; [|by apply Hfeas].
      assert ((remaining d (stack ++ [target]) < remaining d stack)%nat); [|lia].
      apply remaining_push; [done|]. apply rules_producing_nonempty.
      intros Hnil. rewrite Hnil in Hin. by apply elem_of_nil in Hin.
Qed.
End Expansion.

(** ** The index of reactions *)

Lemma index_ok_empty : index_ok empty_designer.
Proof. intros p. unfold rules_producing. simpl. by rewrite lookup_empty. Qed.

Lemma index_ok_add_compound cid name d : index_ok d -> index_ok (_add_compound cid name d).
Proof. intros H p. apply H. Qed.

Lemma index_ok_set_starting_materials sm d :
  index_ok d -> index_ok (set_starting_materials sm d).
Proof. intros H p. apply H. Qed.

Lemma index_ok_add_reaction rs p cond ty d :
  index_ok d -> index_ok (_add_reaction rs p cond ty d).
Proof.
  intros H q. unfold rules_producing. simpl. rewrite filter_app.
  fold (rules_producing d p). rewrite <- (H q).
  destruct (decide (p = q)) as [->|Hne].
  - rewrite lookup_insert_eq. simpl. f_equal.
    rewrite filter_cons_True by done. done.
  - rewrite lookup_insert_ne by done. fold (rules_producing d q).
    rewrite filter_cons_False by done. by rewrite filter_nil, app_nil_r.
Qed.

Lemma foldl_preserves {A B : Type} (P : A -> Prop) (f : A -> B -> A) l a :
  P a -> (forall a x, P a -> P (f a x)) -> P (foldl f a l).
Proof. revert a. induction l as [|x l IH]; intros a Ha Hf; simpl; [done|]. apply IH; auto. Qed.

Lemma index_ok_build_compounds d : index_ok d -> index_ok (_build_compounds d).
Proof.
  intros H. unfold _build_compounds.
  apply foldl_preserves; [|intros; by apply index_ok_add_compound].
  apply foldl_preserves; [|intros; apply foldl_preserves;
                            [done|intros; by apply index_ok_add_compound]].
  apply foldl_preserves; [done|].
  intros a n Ha. case_decide; repeat apply index_ok_add_compound; done.
Qed.

Lemma index_ok_build_reactions d : index_ok d -> index_ok (_build_reactions d).
Proof.
  intros H. unfold _build_reactions.
  do 5 apply index_ok_add_reaction.
  apply foldl_preserves; [|intros; apply foldl_preserves;
                            [done|intros; by apply index_ok_add_reaction]].
  apply foldl_preserves; [done|].
  intros a n Ha. do 2 apply index_ok_add_reaction.
  case_decide; repeat apply index_ok_add_reaction; done.
Qed.

Lemma designer_index_ok : index_ok designer.
Proof.
  apply index_ok_set_starting_materials, index_ok_build_reactions,
    index_ok_build_compounds, index_ok_empty.
Qed.

Lemma cycle_designer_index_ok : index_ok cycle_designer.
Proof.
  unfold cycle_designer.
  apply index_ok_set_starting_materials.
  do 2 apply index_ok_add_reaction. do 3 apply index_ok_add_compound.
  apply index_ok_empty.
Qed.

Lemma wide_designer_index_ok : index_ok wide_designer.
Proof.
  apply index_ok_set_starting_materials. unfold add_rule.
  do 4 apply index_ok_add_reaction. do 5 apply index_ok_add_compound.
  apply index_ok_empty.
Qed.

Lemma elem_of_dedup_onto acc l x : x ∈ dedup_onto acc l <-> x ∈ acc \/ x ∈ l.
Proof.
  revert acc. induction l as [|y l IH]; intros acc.
  - simpl. rewrite elem_of_nil. tauto.
  - rewrite dedup_onto_cons, IH, elem_of_cons. case_bool_decide as Hy.
    + split; [tauto|]. intros [?|[->|?]]; tauto.
    + rewrite elem_of_app, list_elem_of_singleton. tauto.
Qed.

(** The route of a reachable target is the traversal of the chosen rules
    with repetitions dropped, and the traversal is as long as the cost. *)
Lemma design_route_expansion (d : OrganicRouteDesigner) (target_name cid : string) :
  compound_id d target_name = Some cid ->
  minimum_cost d cid [] < INF ->
  exists steps,
    design_route d target_name = Some steps
    /\ steps = dedup_onto [] (expansion d cid)
    /\ Z.of_nat (length (expansion d cid)) = minimum_cost d cid [].
Proof.
  intros Hid Hcost.
  destruct (design_route_cases d target_name)
    as [[E _]|[(c & E & Hinf & _)|(c & st' & E & _ & Hcol & Hroute & _)]];
    rewrite Hid in E; try done; injection E as <-; [exfalso; lia|].
  destruct (collect_fuel_expand d _ _ _ _ _ seen_ok_empty Hcol) as [_ Hexp].
  change (st'.2 = dedup_onto [] (expansion d cid)) in Hexp.
  pose proof (expand_fuel_length d (depth_bound d) cid [] (remaining_le_bound d []) Hcost)
    as Hlen. fold (expansion d cid) in Hlen.
  exists st'.2. done.
Qed.

(** A starting material gets the empty route: the extraction returns at
    once with nothing appended. *)
Lemma design_route_starting_material (d : OrganicRouteDesigner) (name cid : string) :
  compound_id d name = Some cid -> cid ∈ starting_materials d ->
  design_route d name = Some [].
Proof.
  intros Hid Hsm.
  destruct (design_route_cases d name)
    as [[E _]|[(c & E & _ & Hr)|(c & st' & E & _ & Hcol & Hr & _)]];
    rewrite Hid in E; try done; injection E as <-; try done.
  rewrite Hr. f_equal.
  destruct (depth_bound d) as [|n] eqn:Hn; [done|].
  change (collect_body d (collect_steps_fuel d n) cid (∅, []) [] = Some (true, st')) in Hcol.
  unfold collect_body in Hcol. rewrite bool_decide_eq_true_2 in Hcol by done.
  by injection Hcol as <-.
Qed.

(** * The claims *)

(** C1, as amended. For a known target of finite minimum cost,
    [design_route] returns the post-order traversal of the chosen rules with
    later repetitions dropped. The traversal has exactly as many entries as
    the minimum cost counts steps, so the returned sequence has at most that
    many rules, and exactly that many if and only if no rule occurs twice in
    the traversal. *)
Theorem design_route_length_le_cost (d : OrganicRouteDesigner) (target_name cid : string) :
  compound_id d target_name = Some cid ->
  minimum_cost d cid [] < INF ->
  exists steps,
    design_route d target_name = Some steps
    /\ steps = dedup_onto [] (expansion d cid)
    /\ Z.of_nat (length (expansion d cid)) = minimum_cost d cid []
    /\ Z.of_nat (length steps) <= minimum_cost d cid []
    /\ (Z.of_nat (length steps) = minimum_cost d cid [] <-> NoDup (expansion d cid)).
Proof.
  intros Hid Hcost.
  destruct (design_route_expansion d target_name cid Hid Hcost) as (steps & E & Hexp & Hlen).
  exists steps. split; [done|]. rewrite Hexp. split_and!; try done.
  - pose proof (dedup_onto_length [] (expansion d cid)) as Hle. simpl in Hle. lia.
  - rewrite <- Hlen. rewrite Nat2Z.inj_iff.
    pose proof (dedup_onto_length_eq [] (expansion d cid)) as Hiff. simpl in Hiff.
    rewrite Hiff. split; [tauto|]. intros Hnd. split; [done|].
    intros x _ Hx. by apply elem_of_nil in Hx.
Qed.

Lemma design_route_length_le_cost_witness :
  exists steps,
    design_route designer "丙酸丙酯" = Some steps
    /\ steps = dedup_onto [] (expansion designer "ester:C3:C3")
    /\ Z.of_nat (length (expansion designer "ester:C3:C3"))
       = minimum_cost designer "ester:C3:C3" []
    /\ Z.of_nat (length steps) <= minimum_cost designer "ester:C3:C3" []
    /\ (Z.of_nat (length steps) = minimum_cost designer "ester:C3:C3" []
        <-> NoDup (expansion designer "ester:C3:C3")).
Proof.
  apply (design_route_length_le_cost designer "丙酸丙酯" "ester:C3:C3").
  - vm_compute. reflexivity.
  - vm_compute. reflexivity.
Defined.

(** C1 as stated fails on the built-in knowledge base: propyl propanoate
    ("丙酸丙酯") is not a starting material and has minimum cost 5, because
    propanol is counted once as the alcohol and once under the acid, but its
    route has 4 rules, the hydration of propene being emitted once. *)
Lemma design_route_length_counterexample :
  compound_id designer "丙酸丙酯" = Some "ester:C3:C3"
  /\ ("ester:C3:C3" ∉ starting_materials designer)
  /\ minimum_cost designer "ester:C3:C3" [] = 5
  /\ exists steps, design_route designer "丙酸丙酯" = Some steps
       /\ length steps = 4%nat
       /\ Z.of_nat (length steps) <> minimum_cost designer "ester:C3:C3" [].
Proof.
  split_and!; [by vm_compute|by_eval|by vm_compute|].
  eexists. split; [vm_compute; reflexivity|]. split; [reflexivity|by vm_compute].
Qed.

(** C3. In every step sequence [design_route] returns, each input of each
    rule is a starting material or the output of a rule strictly earlier in
    the sequence; executed forward from the starting materials, every rule
    finds its inputs available. *)
Theorem design_route_dependency_order (d : OrganicRouteDesigner) (target_name : string)
    (steps : list Reaction) :
  index_ok d ->
  design_route d target_name = Some steps ->
  dependency_ordered d steps /\ simulate (starting_materials d) steps = true.
Proof.
  intros Hidx Hroute.
  assert (Hdep : dependency_ordered d steps).
  { destruct (design_route_cases d target_name)
      as [[_ E]|[(c & _ & _ & E)|(c & st' & _ & _ & _ & E & Hpost)]];
      rewrite Hroute in E; try done; injection E as ->.
    - apply dependency_ordered_nil.
    - destruct Hpost as (_ & ext & _ & _ & _ & Hi).
      destruct (Hi Hidx) as (Hd & _). apply Hd, dependency_ordered_nil. }
  split; [done|]. by apply simulate_complete.
Qed.

Lemma design_route_dependency_order_witness :
  exists steps,
    design_route designer "乙酸乙酯" = Some steps /\ length steps = 3%nat
    /\ dependency_ordered designer steps
    /\ simulate (starting_materials designer) steps = true.
Proof.
  eexists. split; [vm_compute; reflexivity|]. split; [reflexivity|].
  apply (design_route_dependency_order designer "乙酸乙酯").
  - exact designer_index_ok.
  - vm_compute. reflexivity.
Defined.

(** C4. A step sequence returned by [design_route] holds no rule twice. For
    a reachable target it is the post-order traversal of the chosen rules
    with each rule kept at its first occurrence only, so every rule of the
    traversal is in the sequence, once. *)
Theorem design_route_no_duplicates (d : OrganicRouteDesigner) (target_name : string)
    (steps : list Reaction) :
  design_route d target_name = Some steps ->
  NoDup steps
  /\ forall cid, compound_id d target_name = Some cid -> minimum_cost d cid [] < INF ->
       steps = dedup_onto [] (expansion d cid)
       /\ forall r, r ∈ steps <-> r ∈ expansion d cid.
Proof.
  intros Hroute. split.
  - destruct (design_route_cases d target_name)
      as [[_ E]|[(c & _ & _ & E)|(c & st' & _ & _ & _ & E & Hpost)]];
      rewrite Hroute in E; try done; injection E as ->.
    + constructor.
    + destruct Hpost as (_ & ext & _ & _ & Hnd & _). apply Hnd. constructor.
  - intros cid Hid Hcost.
    destruct (design_route_expansion d target_name cid Hid Hcost)
      as (steps' & E & Hexp & _).
    rewrite Hroute in E. injection E as <-. split; [done|].
    intros r. rewrite Hexp, elem_of_dedup_onto, elem_of_nil. tauto.
Qed.

Lemma design_route_no_duplicates_witness :
  exists steps,
    design_route designer "丙酸丙酯" = Some steps
    /\ length (filter (fun r => product r = "alcohol:C3") steps) = 1%nat
    /\ length (filter (fun r => product r = "alcohol:C3")
                 (expansion designer "ester:C3:C3")) = 2%nat
    /\ NoDup steps
    /\ forall cid, compound_id designer "丙酸丙酯" = Some cid ->
         minimum_cost designer cid [] < INF ->
         steps = dedup_onto [] (expansion designer cid)
         /\ forall r, r ∈ steps <-> r ∈ expansion designer cid.
Proof.
  eexists. split; [vm_compute; reflexivity|].
  split; [vm_compute; reflexivity|]. split; [vm_compute; reflexivity|].
  apply (design_route_no_duplicates designer "丙酸丙酯").
  vm_compute. reflexivity.
Defined.

(** C10. For a known target that is not a starting material and has finite
    minimum cost from the empty path, the extraction does not fail: the
    collection returns [True] (as it does from any compound of finite cost,
    so no inner call takes the failure branch), and [design_route] returns a
    non-empty sequence whose last rule produces the target. *)
Theorem collect_never_fails (d : OrganicRouteDesigner) (target_name cid : string) :
  index_ok d ->
  compound_id d target_name = Some cid ->
  cid ∉ starting_materials d ->
  minimum_cost d cid [] < INF ->
  (forall target st stack, seen_ok st -> minimum_cost d target stack < INF ->
     exists st', collect_steps_fuel d (depth_bound d) target st stack = Some (true, st')
                 /\ _collect_steps d target st stack = (true, st'))
  /\ exists pre rxn,
       design_route d target_name = Some (pre ++ [rxn]) /\ product rxn = cid.
Proof.
  intros Hidx Hid Hsm Hcost. split.
  - intros target st stack Hst Hc.
    destruct (collect_fuel_ok d (depth_bound d) target st stack
                (remaining_le_bound d stack) Hst Hc) as (st' & E & _).
    exists st'. split; [done|]. by apply (collect_steps_enough d _ _ _ _ _ E).
  - destruct (design_route_cases d target_name)
      as [[E _]|[(c & E & Hinf & _)|(c & st' & E & _ & _ & Hroute & Hpost)]];
      rewrite Hid in E; try done; injection E as <-; [exfalso; lia|].
    destruct Hpost as (_ & ext & Hext & _ & _ & Hi).
    destruct (Hi Hidx) as (_ & _ & _ & Hlast).
    destruct Hlast as (pre & rxn & -> & Hprod); [done| |].
    { intros r Hr. by apply elem_of_nil in Hr. }
    exists pre, rxn. rewrite Hroute, Hext. done.
Qed.

Lemma collect_never_fails_witness :
  (forall target st stack, seen_ok st -> minimum_cost designer target stack < INF ->
     exists st', collect_steps_fuel designer (depth_bound designer) target st stack
                 = Some (true, st')
                 /\ _collect_steps designer target st stack = (true, st'))
  /\ exists pre rxn,
       design_route designer "苯胺" = Some (pre ++ [rxn]) /\ product rxn = "aniline".
Proof.
  apply (collect_never_fails designer "苯胺" "aniline").
  - exact designer_index_ok.
  - vm_compute. reflexivity.
  - by_eval.
  - vm_compute. reflexivity.
Defined.

(** ** The recursion limit *)

Lemma collect_loop_mono rec rec' rs st v :
  (forall r s x, rec r s = Some x -> rec' r s = Some x) ->
  collect_loop rec rs st = Some v -> collect_loop rec' rs st = Some v.
Proof.
  intros Hle. revert st. induction rs as [|r rs IH]; intros st; simpl; [done|].
  destruct (rec r st) as [[[] st1]|] eqn:E; [| |done]; rewrite (Hle _ _ _ E); [apply IH|done].
Qed.

Lemma collect_steps_fuel_mono (d : OrganicRouteDesigner) fuel fuel' target st stack v :
  (fuel <= fuel')%nat ->
  collect_steps_fuel d fuel target st stack = Some v ->
  collect_steps_fuel d fuel' target st stack = Some v.
Proof.
  revert fuel' target st stack v.
  induction fuel as [|f IH]; intros fuel' target st stack v Hle; [done|].
  destruct fuel' as [|f']; [lia|].
  change (collect_steps_fuel d (S f) target st stack)
    with (collect_body d (collect_steps_fuel d f) target st stack).
  change (collect_steps_fuel d (S f') target st stack)
    with (collect_body d (collect_steps_fuel d f') target st stack).
  unfold collect_body. case_bool_decide; [done|].
  destruct (_best_cost d target stack).2 as [rxn|]; [|done].
  destruct (collect_loop _ (reactants rxn) st) as [res|] eqn:E; [|done].
  rewrite (collect_loop_mono _
             (fun r st' => collect_steps_fuel d f' r st' (stack ++ [target])) _ _ _
             (fun r s x => IH f' r s (stack ++ [target]) x ltac:(lia)) E).
  done.
Qed.

(** More room for recursion does not change a result that was returned. *)
Lemma design_route_limited_mono (d : OrganicRouteDesigner) limit limit' name r :
  (limit <= limit')%nat ->
  design_route_limited limit d name = Some r ->
  design_route_limited limit' d name = Some r.
Proof.
  intros Hle. unfold design_route_limited.
  destruct (compound_id d name) as [cid|]; [|done].
  destruct (best_cost_fuel d limit cid []) as [cr|] eqn:E; [|done].
  rewrite (best_cost_fuel_mono d _ _ _ _ _ Hle E).
  case_bool_decide; [done|].
  destruct (collect_steps_fuel d limit cid (∅, []) []) as [res|] eqn:E'; [|done].
  by rewrite (collect_steps_fuel_mono d _ _ _ _ _ _ Hle E').
Qed.

(** Within the depth bound of the knowledge base no call runs into the
    limit, and the value returned is the one [design_route] computes. *)
Lemma design_route_limited_enough (d : OrganicRouteDesigner) limit name :
  (depth_bound d <= limit)%nat ->
  design_route_limited limit d name = Some (design_route d name).
Proof.
  intros Hle.
  apply (design_route_limited_mono d (depth_bound d)); [done|].
  unfold design_route_limited, design_route.
  destruct (compound_id d name) as [cid|]; [|done].
  rewrite (best_cost_fuel_enough d _ _ _ (remaining_le_bound d [])).
  case_bool_decide as Hc; [done|].
  destruct (collect_fuel_ok d (depth_bound d) cid (∅, []) [])
    as (st' & E & _); [apply remaining_le_bound|apply seen_ok_empty|unfold minimum_cost; lia|].
  rewrite E. by rewrite (collect_steps_enough d _ _ _ _ _ E eq_refl).
Qed.

(** A name that is not registered is answered without any recursion. *)
Lemma design_route_limited_unknown (d : OrganicRouteDesigner) limit name :
  name_to_id d !! name = None -> design_route_limited limit d name = Some None.
Proof. intros H. unfold design_route_limited, compound_id. by rewrite H. Qed.

(** The built-in knowledge base produces 154 compounds by rules, so room
    for 155 nested calls is enough for it. *)
Lemma designer_depth_bound : depth_bound designer = 155%nat.
Proof. vm_compute. reflexivity. Qed.




(** C7. For a starting material the search returns cost 0 and no rule, for
    every ancestor path (also one that holds the compound itself) and
    whatever rules produce it: the first call returns at once, before the
    cycle test and the rules. [design_route] gives it the empty sequence. *)
Theorem starting_material_cost_zero (d : OrganicRouteDesigner) (cid : string) :
  cid ∈ starting_materials d ->
  (forall path, _best_cost d cid path = (0, None))
  /\ (forall path fuel, best_cost_fuel d (S fuel) cid path = Some (0, None))
  /\ (forall name, compound_id d name = Some cid -> design_route d name = Some []).
Proof.
  intros Hsm. split_and!.
  - intros path. by apply best_cost_sm.
  - intros path fuel. simpl. unfold best_cost_body. by rewrite bool_decide_eq_true_2.
  - intros name Hid. by apply (design_route_starting_material d name cid).
Qed.

Lemma starting_material_cost_zero_witness :
  rules_producing designer "alcohol:C2" <> []
  /\ _best_cost designer "alcohol:C2" ["alcohol:C2"] = (0, None)
  /\ design_route designer "乙醇" = Some [].
Proof.
  assert (Hsm : "alcohol:C2" ∈ starting_materials designer) by by_eval.
  destruct (starting_material_cost_zero designer "alcohol:C2" Hsm) as (Hcost & _ & Hroute).
  split; [by vm_compute|]. split; [apply Hcost|].
  apply Hroute. vm_compute. reflexivity.
Defined.

(** C9. [design_route] returns the same value, the empty sequence, for a
    starting material (reachable, cost 0) and for a known target that is
    unreachable; [route_to_text] renders the two alike. *)
Theorem empty_route_ambiguous (d : OrganicRouteDesigner) (name1 cid1 name2 cid2 : string) :
  compound_id d name1 = Some cid1 -> cid1 ∈ starting_materials d ->
  compound_id d name2 = Some cid2 -> INF <= minimum_cost d cid2 [] ->
  minimum_cost d cid1 [] = 0
  /\ design_route d name1 = Some []
  /\ design_route d name2 = Some []
  /\ design_route d name1 = design_route d name2
  /\ forall n, route_to_text d n (design_route d name1)
               = route_to_text d n (design_route d name2).
Proof.
  intros Hid1 Hsm Hid2 Hinf.
  assert (H1 : design_route d name1 = Some [])
    by (by apply (design_route_starting_material d name1 cid1)).
  assert (H2 : design_route d name2 = Some []).
  { unfold design_route. rewrite Hid2. fold (minimum_cost d cid2 []).
    by rewrite bool_decide_eq_true_2. }
  split_and!; try done.
  - unfold minimum_cost. by rewrite best_cost_sm.
  - by rewrite H1, H2.
  - intros n. by rewrite H1, H2.
Qed.

Lemma empty_route_ambiguous_witness :
  minimum_cost cycle_designer "S" [] = 0
  /\ design_route cycle_designer "s" = Some []
  /\ design_route cycle_designer "a" = Some []
  /\ design_route cycle_designer "s" = design_route cycle_designer "a"
  /\ forall n, route_to_text cycle_designer n (design_route cycle_designer "s")
               = route_to_text cycle_designer n (design_route cycle_designer "a").
Proof.
  apply (empty_route_ambiguous cycle_designer "s" "S" "a" "A").
  - vm_compute. reflexivity.
  - by_eval.
  - vm_compute. reflexivity.
  - vm_compute. discriminate.
Defined.

(** ** Infeasible rules and rule cycles *)

Lemma rule_cost_None (d : OrganicRouteDesigner) target path rxn x :
  x ∈ reactants rxn -> INF <= minimum_cost d x (path ++ [target]) ->
  rule_cost d target path rxn = None.
Proof.
  intros Hx Hinf. destruct (rule_cost d target path rxn) as [c|] eqn:E; [|done].
  apply rule_cost_Some in E as [Hfeas _]. specialize (Hfeas x Hx). lia.
Qed.

Lemma best_cost_all_infeasible (d : OrganicRouteDesigner) target path :
  target ∉ starting_materials d ->
  (forall r, r ∈ rules_producing d target -> rule_cost d target path r = None) ->
  _best_cost d target path = (INF, None).
Proof.
  intros Hsm Hall. destruct (decide (target ∈ path)) as [Hp|Hp].
  { by apply best_cost_cycle. }
  destruct (best_cost_cases d target path Hsm Hp)
    as [[E _]|(l1 & r & l2 & c & El & _ & Hc & _)]; [done|].
  rewrite Hall in Hc; [done|]. rewrite El. apply elem_of_app. right. apply list_elem_of_here.
Qed.

Lemma cycle_unreachable (d : OrganicRouteDesigner) (A B : string) :
  A ∉ starting_materials d -> B ∉ starting_materials d ->
  (forall r, r ∈ rules_producing d A -> B ∈ reactants r) ->
  (forall r, r ∈ rules_producing d B -> A ∈ reactants r) ->
  forall stack, _best_cost d A stack = (INF, None).
Proof.
  intros HA HB HAB HBA stack.
  apply best_cost_all_infeasible; [done|]. intros r Hr.
  apply (rule_cost_None d A stack r B); [by apply HAB|].
  unfold minimum_cost. rewrite best_cost_all_infeasible; [done|done|].
  intros r' Hr'. apply (rule_cost_None d B (stack ++ [A]) r' A); [by apply HBA|].
  unfold minimum_cost. rewrite best_cost_cycle; [done|done|].
  rewrite !elem_of_app, list_elem_of_singleton. tauto.
Qed.

(** C5. The search returns on every input: a recursion depth of one more
    than the number of compounds some rule produces is enough, hence also
    one more than the size of any set of compounds holding them all, and
    more depth does not change the result. When every rule for [A] needs [B]
    and every rule for [B] needs [A], neither being a starting material,
    both come out unreachable, whatever the ancestor path, and
    [design_route] gives them the empty sequence. *)
Theorem best_cost_terminates (d : OrganicRouteDesigner) :
  (forall target stack fuel, (depth_bound d <= fuel)%nat ->
     best_cost_fuel d fuel target stack = Some (_best_cost d target stack))
  /\ (forall (U : gset string) target stack fuel,
        dom (product_to_reactions d) ⊆ U -> (size U < fuel)%nat ->
        best_cost_fuel d fuel target stack = Some (_best_cost d target stack))
  /\ (forall A B,
        A ∉ starting_materials d -> B ∉ starting_materials d ->
        (forall r, r ∈ rules_producing d A -> B ∈ reactants r) ->
        (forall r, r ∈ rules_producing d B -> A ∈ reactants r) ->
        (forall stack, _best_cost d A stack = (INF, None)
                       /\ _best_cost d B stack = (INF, None))
        /\ (forall name, compound_id d name = Some A \/ compound_id d name = Some B ->
              design_route d name = Some [])).
Proof.
  split_and!.
  - intros target stack fuel Hle. apply best_cost_fuel_enough.
    pose proof (remaining_le_bound d stack). lia.
  - intros U target stack fuel Hsub Hlt. apply best_cost_fuel_enough.
    pose proof (remaining_le_bound d stack) as Hr. unfold depth_bound in Hr.
    pose proof (subseteq_size _ _ Hsub). lia.
  - intros A B HA HB HAB HBA.
    assert (Hcost : forall stack, _best_cost d A stack = (INF, None)
                                  /\ _best_cost d B stack = (INF, None)).
    { intros stack. split.
      - by apply (cycle_unreachable d A B).
      - by apply (cycle_unreachable d B A). }
    split; [done|]. intros name Hid. unfold design_route.
    destruct Hid as [-> | ->].
    + destruct (Hcost []) as [-> _]. done.
    + destruct (Hcost []) as [_ ->]. done.
Qed.

Lemma best_cost_terminates_witness :
  best_cost_fuel cycle_designer 3 "A" [] = Some (_best_cost cycle_designer "A" [])
  /\ best_cost_fuel cycle_designer 4 "A" [] = Some (_best_cost cycle_designer "A" [])
  /\ _best_cost cycle_designer "A" [] = (INF, None)
  /\ _best_cost cycle_designer "B" [] = (INF, None)
  /\ design_route cycle_designer "a" = Some []
  /\ design_route cycle_designer "b" = Some [].
Proof.
  destruct (best_cost_terminates cycle_designer) as (Hdepth & Hset & Hcycle).
  destruct (Hcycle "A" "B") as [Hcost Hroute].
  - by_eval.
  - by_eval.
  - intros r Hr. revert r Hr. apply Forall_forall. by_eval.
  - intros r Hr. revert r Hr. apply Forall_forall. by_eval.
  - split_and!.
    + apply Hdepth. vm_compute. lia.
    + apply (Hset (compounds cycle_designer)); [by_eval|vm_compute; lia].
    + apply Hcost.
    + apply Hcost.
    + apply Hroute. left. vm_compute. reflexivity.
    + apply Hroute. right. vm_compute. reflexivity.
Defined.

(** ** Rules with a repeated input *)

Lemma rule_cost_replicate (d : OrganicRouteDesigner) target path rxn r n c :
  reactants rxn = replicate n r ->
  minimum_cost d r (path ++ [target]) = c -> c < INF ->
  rule_cost d target path rxn = Some (1 + Z.of_nat n * c).
Proof.
  intros Hrs Hc Hlt. unfold rule_cost. rewrite Hrs.
  assert (Hmap : map (fun r0 => minimum_cost d r0 (path ++ [target])) (replicate n r)
                 = replicate n c).
  { clear Hrs. induction n as [|n IH]; simpl; [done|]. by rewrite IH, Hc. }
  rewrite Hmap. clear Hmap Hrs.
  assert (Hall : forallb (fun c0 => bool_decide (c0 < INF)) (replicate n c) = true).
  { induction n as [|n IH]; simpl; [done|]. by rewrite bool_decide_eq_true_2. }
  rewrite Hall. do 2 f_equal. unfold sum_Z. clear Hall.
  induction n as [|n IH]; [simpl; lia|].
  rewrite Nat2Z.inj_succ. cbn [replicate foldr]. rewrite IH. lia.
Qed.

Lemma best_cost_single_rule (d : OrganicRouteDesigner) target path rxn c :
  target ∉ starting_materials d -> target ∉ path ->
  rules_producing d target = [rxn] ->
  rule_cost d target path rxn = Some c ->
  _best_cost d target path = if bool_decide (c < INF) then (c, Some rxn) else (INF, None).
Proof.
  intros Hsm Hp Hrules Hrc. rewrite best_cost_rules by done.
  rewrite Hrules. simpl. by rewrite Hrc.
Qed.

Lemma wide_cost_A2 : minimum_cost wide_designer "A2" ["A4"; "A3"] = 1001.
Proof. vm_compute. reflexivity. Qed.

Lemma wide_cost_A3 : minimum_cost wide_designer "A3" ["A4"] = 1001001.
Proof.
  unfold minimum_cost.
  rewrite (best_cost_single_rule wide_designer "A3" ["A4"] wide3 1001001).
  - reflexivity.
  - by_eval.
  - by_eval.
  - vm_compute. reflexivity.
  - apply (rule_cost_replicate wide_designer "A3" ["A4"] wide3 "A2" 1000 1001).
    + reflexivity.
    + exact wide_cost_A2.
    + reflexivity.
Qed.

Lemma wide_rule_cost_A4 : rule_cost wide_designer "A4" [] wide4 = Some 1001001001.
Proof.
  apply (rule_cost_replicate wide_designer "A4" [] wide4 "A3" 1000 1001001).
  - reflexivity.
  - exact wide_cost_A3.
  - reflexivity.
Qed.

(** C2, as amended. A starting material costs 0 with no rule, whatever the
    path. Any other target that is on the path is unreachable, cost [10**9].
    Otherwise every rule producing the target (in registration order) whose
    inputs are all reachable has the cost one plus the sum of the costs of
    its inputs, computed with the target appended to the path, and either no
    such rule costs less than [10**9], and the result is [10**9] with no
    rule, or the result is the least such cost, below [10**9], with the first
    rule in registration order that has it: rules before it cost strictly
    more, rules after it at least as much. *)
Theorem best_cost_minimum (d : OrganicRouteDesigner) (target : string) (path : list string) :
  (target ∈ starting_materials d -> _best_cost d target path = (0, None))
  /\ (target ∉ starting_materials d -> target ∈ path ->
      _best_cost d target path = (INF, None))
  /\ (target ∉ starting_materials d -> target ∉ path ->
      (_best_cost d target path = (INF, None)
       /\ forall rxn c, rxn ∈ rules_producing d target ->
            rule_cost d target path rxn = Some c -> INF <= c)
      \/ (exists l1 rxn l2 c,
            rules_producing d target = l1 ++ rxn :: l2
            /\ _best_cost d target path = (c, Some rxn)
            /\ rule_cost d target path rxn = Some c /\ c < INF
            /\ (forall r' c', r' ∈ l1 -> rule_cost d target path r' = Some c' -> c < c')
            /\ (forall r' c', r' ∈ l2 -> rule_cost d target path r' = Some c' -> c <= c')))
  /\ (index_ok d ->
      rules_producing d target = filter (fun r => product r = target) (reactions d)).
Proof.
  split_and!.
  - apply best_cost_sm.
  - apply best_cost_cycle.
  - apply best_cost_cases.
  - intros Hidx. apply Hidx.
Qed.

Lemma best_cost_minimum_witness :
  exists r1 r2,
    rules_producing designer "haloalkane:C1" = [r1; r2]
    /\ rule_cost designer "haloalkane:C1" [] r1 = Some 1
    /\ rule_cost designer "haloalkane:C1" [] r2 = Some 1
    /\ ((_best_cost designer "haloalkane:C1" [] = (INF, None)
         /\ forall rxn c, rxn ∈ rules_producing designer "haloalkane:C1" ->
              rule_cost designer "haloalkane:C1" [] rxn = Some c -> INF <= c)
        \/ (exists l1 rxn l2 c,
              rules_producing designer "haloalkane:C1" = l1 ++ rxn :: l2
              /\ _best_cost designer "haloalkane:C1" [] = (c, Some rxn)
              /\ rule_cost designer "haloalkane:C1" [] rxn = Some c /\ c < INF
              /\ (forall r' c', r' ∈ l1 ->
                    rule_cost designer "haloalkane:C1" [] r' = Some c' -> c < c')
              /\ (forall r' c', r' ∈ l2 ->
                    rule_cost designer "haloalkane:C1" [] r' = Some c' -> c <= c')))
    /\ _best_cost designer "haloalkane:C1" [] = (1, Some r1).
Proof.
  do 2 eexists. split; [vm_compute; reflexivity|].
  split; [vm_compute; reflexivity|]. split; [vm_compute; reflexivity|].
  split; [|vm_compute; reflexivity].
  destruct (best_cost_minimum designer "haloalkane:C1" []) as (_ & _ & H & _).
  apply H; by_eval.
Defined.

(** C2 as stated fails where a total reaches [10**9]: in [wide_designer]
    the one rule producing [A4] has all its inputs reachable and costs
    1 + 1000 * 1001001 = 1001001001, which would be the minimum, but the
    search answers [10**9] with no rule. *)
Lemma best_cost_cap_counterexample :
  ("A4" ∉ starting_materials wide_designer)
  /\ rules_producing wide_designer "A4" = [wide4]
  /\ (forall r, r ∈ reactants wide4 -> minimum_cost wide_designer r ([] ++ ["A4"]) < INF)
  /\ rule_cost wide_designer "A4" [] wide4 = Some 1001001001
  /\ _best_cost wide_designer "A4" [] = (INF, None)
  /\ minimum_cost wide_designer "A4" [] <> 1001001001.
Proof.
  assert (Hsm : "A4" ∉ starting_materials wide_designer) by by_eval.
  assert (Hrules : rules_producing wide_designer "A4" = [wide4]) by (vm_compute; reflexivity).
  assert (Hbest : _best_cost wide_designer "A4" [] = (INF, None)).
  { rewrite (best_cost_single_rule wide_designer "A4" [] wide4 1001001001 Hsm);
      [reflexivity|apply not_elem_of_nil|exact Hrules|exact wide_rule_cost_A4]. }
  split_and!.
  - exact Hsm.
  - exact Hrules.
  - apply (rule_cost_Some wide_designer "A4" [] wide4 1001001001 wide_rule_cost_A4).
  - exact wide_rule_cost_A4.
  - exact Hbest.
  - unfold minimum_cost. rewrite Hbest. discriminate.
Qed.

(** ** The ranking order *)

Lemma string_leb_trans s1 s2 s3 :
  String.leb s1 s2 = true -> String.leb s2 s3 = true -> String.leb s1 s3 = true.
Proof.
  unfold String.leb. revert s2 s3.
  induction s1 as [|x s1 IH]; intros [|y s2] [|z s3]; simpl; try done.
  unfold Ascii.compare.
  destruct (N.compare_spec (Ascii.N_of_ascii x) (Ascii.N_of_ascii y));
    destruct (N.compare_spec (Ascii.N_of_ascii y) (Ascii.N_of_ascii z));
    destruct (N.compare_spec (Ascii.N_of_ascii x) (Ascii.N_of_ascii z));
    try done; try lia.
  apply IH.
Qed.

#[global] Instance key_le_total : Total key_le.
Proof.
  intros [c1 n1] [c2 n2]. unfold key_le. simpl.
  destruct (Z.lt_trichotomy c1 c2) as [?|[->|?]]; [tauto| |tauto].
  destruct (String.leb_total n1 n2); tauto.
Qed.

#[global] Instance key_le_trans : Transitive key_le.
Proof.
  intros [c1 n1] [c2 n2] [c3 n3]. unfold key_le. simpl.
  intros [?|[-> H12]] [?|[-> H23]]; try (left; lia).
  right. split; [done|]. by apply (string_leb_trans n1 n2 n3).
Qed.

Lemma candidates_loop_filter (d : OrganicRouteDesigner) (items : list (string * string)) :
  candidates_loop d items
  = map (fun kv => (minimum_cost d kv.1 [], kv.2))
        (filter (fun kv => (kv.1 ∉ starting_materials d) /\ minimum_cost d kv.1 [] < INF)
                items).
Proof.
  induction items as [|[cid name] rest IH]; simpl; [done|].
  fold (minimum_cost d cid []). rewrite filter_cons. simpl.
  case_bool_decide as Hsm.
  - rewrite decide_False by tauto. done.
  - case_bool_decide as Hc.
    + rewrite decide_True by done. simpl. by rewrite IH.
    + rewrite decide_False by tauto. done.
Qed.

(** A negative [count] cuts that many entries off the end. *)
Lemma slice_to_negative {A : Type} (count : Z) (l : list A) :
  count < 0 -> slice_to count l = take (length l - Z.to_nat (- count)) l.
Proof.
  intros H. unfold slice_to. rewrite bool_decide_eq_false_2 by lia. f_equal. lia.
Qed.

(** C8. For a count [N >= 0] the ranking returns the names of the first [N]
    entries of the list of pairs (minimum cost, display name) of exactly the
    registered compounds that are not starting materials and have finite
    cost, sorted ascending by cost and then name. With exactly one compound
    at one step and one at two steps, the top-1 answer is the one-step
    compound. *)
Theorem demo_targets_ranking (d : OrganicRouteDesigner) (count : Z) :
  0 <= count ->
  exists ranked,
    demo_targets d count = map snd (take (Z.to_nat count) ranked)
    /\ StronglySorted key_le ranked
    /\ ranked ≡ₚ candidates d
    /\ candidates d
       = map (fun kv => (minimum_cost d kv.1 [], kv.2))
             (filter (fun kv => (kv.1 ∉ starting_materials d)
                                /\ minimum_cost d kv.1 [] < INF)
                     (id_to_name d))
    /\ (forall n1 n2, candidates d ≡ₚ [(1, n1); (2, n2)] -> demo_targets d 1 = [n1]).
Proof.
  intros Hcount. exists (merge_sort key_le (candidates d)).
  pose proof (StronglySorted_merge_sort key_le (candidates d)) as Hsorted.
  pose proof (merge_sort_Permutation key_le (candidates d)) as Hperm.
  split_and!; try done.
  - unfold demo_targets, slice_to. by rewrite bool_decide_eq_true_2.
  - apply candidates_loop_filter.
  - intros n1 n2 Hcand. unfold demo_targets, slice_to.
    rewrite bool_decide_eq_true_2 by lia.
    assert (Hperm' : [(1, n1); (2, n2)] ≡ₚ merge_sort key_le (candidates d))
      by (by rewrite Hperm, Hcand).
    apply Permutation_length_2_inv in Hperm' as [E|E]; rewrite E in *; [done|].
    exfalso. apply StronglySorted_inv in Hsorted as [_ Hall].
    apply Forall_cons in Hall as [[Hlt|[Heq _]] _]; simpl in *; lia.
Qed.

Lemma demo_targets_ranking_witness :
  candidates ranking_designer = [(2, "y"); (1, "x")]
  /\ demo_targets ranking_designer 1 = ["x"].
Proof.
  assert (Hcand : candidates ranking_designer = [(2, "y"); (1, "x")])
    by (vm_compute; reflexivity).
  split; [exact Hcand|].
  destruct (demo_targets_ranking ranking_designer 1) as (ranked & _ & _ & _ & _ & Hone).
  - lia.
  - apply (Hone "x" "y"). rewrite Hcand. apply perm_swap.
Defined.

(** * Further properties of the planner *)

(** ** Bounds on the cost *)

Lemma sum_Z_map_le {A : Type} (f g : A -> Z) (l : list A) :
  (forall x, x ∈ l -> f x <= g x) -> sum_Z (map f l) <= sum_Z (map g l).
Proof.
  unfold sum_Z. induction l as [|x l IH]; intros H; simpl; [lia|].
  pose proof (H x (list_elem_of_here _ _)).
  assert (foldr Z.add 0 (map f l) <= foldr Z.add 0 (map g l)); [|lia].
  apply IH. intros y Hy. apply H. by apply list_elem_of_further.
Qed.

Lemma sum_Z_map_nonneg {A : Type} (f : A -> Z) (l : list A) :
  (forall x, x ∈ l -> 0 <= f x) -> 0 <= sum_Z (map f l).
Proof.
  intros H. pose proof (sum_Z_map_le (fun _ => 0) f l H) as Hle.
  assert (sum_Z (map (fun _ : A => 0) l) = 0); [|lia].
  unfold sum_Z. clear. induction l as [|x l IH]; simpl; [done|lia].
Qed.

Lemma rule_cost_intro (d : OrganicRouteDesigner) target path rxn :
  (forall r, r ∈ reactants rxn -> minimum_cost d r (path ++ [target]) < INF) ->
  rule_cost d target path rxn
  = Some (1 + sum_Z (map (fun r => minimum_cost d r (path ++ [target])) (reactants rxn))).
Proof.
  intros H. unfold rule_cost.
  assert (forallb (fun c => bool_decide (c < INF))
            (map (fun r => minimum_cost d r (path ++ [target])) (reactants rxn)) = true) as ->;
    [|done].
  apply forallb_forall. intros c Hc. apply in_map_iff in Hc as (r & <- & Hr).
  apply bool_decide_eq_true_2, H. by apply list_elem_of_In.
Qed.

Lemma minimum_cost_bounds_fuel (d : OrganicRouteDesigner) (fuel : nat) :
  forall target stack, (remaining d stack < fuel)%nat ->
    0 <= minimum_cost d target stack <= INF
    /\ (target ∉ starting_materials d -> 1 <= minimum_cost d target stack).
Proof.
  induction fuel as [|fuel IH]; intros target stack Hfuel; [lia|].
  unfold minimum_cost.
  destruct (decide (target ∈ starting_materials d)) as [Hsm|Hsm].
  { rewrite best_cost_sm by done. simpl. unfold INF. split; [lia|done]. }
  destruct (decide (target ∈ stack)) as [Hst|Hst].
  { rewrite best_cost_cycle by done. simpl. unfold INF. split; lia. }
  destruct (best_cost_cases d target stack Hsm Hst)
    as [[E _]|(l1 & rxn & l2 & c & El & E & Hrc & Hlt & _)]; rewrite E; simpl.
  { unfold INF. split; lia. }
  destruct (rule_cost_Some d target stack rxn c Hrc) as [_ Hsum].
  assert (0 <= sum_Z (map (fun r => minimum_cost d r (stack ++ [target])) (reactants rxn))).
  { apply sum_Z_map_nonneg. intros r _. apply IH.
    assert ((remaining d (stack ++ [target]) < remaining d stack)%nat); [|lia].
    apply remaining_push; [done|]. apply rules_producing_nonempty.
    rewrite El. by destruct l1. }
  split; lia.
Qed.

Lemma minimum_cost_bounds (d : OrganicRouteDesigner) target stack :
  0 <= minimum_cost d target stack <= INF
  /\ (target ∉ starting_materials d -> 1 <= minimum_cost d target stack).
Proof. apply (minimum_cost_bounds_fuel d (depth_bound d)), remaining_le_bound. Qed.

(** The result is at most the cost of any rule producing the target. *)
Lemma minimum_cost_le_rule (d : OrganicRouteDesigner) target stack rxn c :
  target ∉ stack -> rxn ∈ rules_producing d target ->
  rule_cost d target stack rxn = Some c ->
  minimum_cost d target stack <= c.
Proof.
  intros Hst Hin Hrc.
  destruct (decide (target ∈ starting_materials d)) as [Hsm|Hsm].
  { unfold minimum_cost. rewrite best_cost_sm by done. simpl.
    destruct (rule_cost_Some d target stack rxn c Hrc) as [_ ->].
    assert (0 <= sum_Z (map (fun r => minimum_cost d r (stack ++ [target])) (reactants rxn)));
      [|lia].
    apply sum_Z_map_nonneg. intros r _. apply minimum_cost_bounds. }
  unfold minimum_cost.
  destruct (best_cost_cases d target stack Hsm Hst)
    as [[E Hall]|(l1 & r & l2 & c' & El & E & Hr & Hlt & Hb & Ha)]; rewrite E; simpl.
  - by apply (Hall rxn).
  - rewrite El in Hin. apply elem_of_app in Hin as [Hin|Hin].
    + pose proof (Hb rxn c Hin Hrc). lia.
    + apply elem_of_cons in Hin as [->|Hin].
      * rewrite Hr in Hrc. injection Hrc as <-. lia.
      * by apply (Ha rxn).
Qed.

(** ** Monotonicity of the cost *)

Section CostMono.
Variables d d' : OrganicRouteDesigner.
Hypothesis Hsm : forall x, x ∈ starting_materials d -> x ∈ starting_materials d'.
Hypothesis Hrules : forall t r, r ∈ rules_producing d t -> r ∈ rules_producing d' t.

(** More starting materials, more rules and fewer ancestors never raise
    the cost. *)
Lemma cost_mono_fuel (fuel : nat) :
  forall target stack stack',
    (forall x, x ∈ stack' -> x ∈ stack) ->
    (remaining d' stack' < fuel)%nat ->
    minimum_cost d' target stack' <= minimum_cost d target stack.
Proof.
  induction fuel as [|fuel IH]; intros target stack stack' Hsub Hfuel; [lia|].
  destruct (decide (target ∈ starting_materials d')) as [Hsm'|Hsm'].
  { unfold minimum_cost at 1. rewrite best_cost_sm by done. simpl.
    apply minimum_cost_bounds. }
  assert (Hnsm : target ∉ starting_materials d) by (intros H; by apply Hsm', Hsm).
  destruct (decide (target ∈ stack)) as [Hst|Hst].
  { unfold minimum_cost at 2. rewrite best_cost_cycle by done. simpl.
    apply minimum_cost_bounds. }
  assert (Hst' : target ∉ stack') by (intros H; by apply Hst, Hsub).
  unfold minimum_cost at 2.
  destruct (best_cost_cases d target stack Hnsm Hst)
    as [[E _]|(l1 & rxn & l2 & c & El & E & Hrc & Hlt & _)]; rewrite E; simpl.
  { apply minimum_cost_bounds. }
  destruct (rule_cost_Some d target stack rxn c Hrc) as [Hfeas ->].
  assert (Hin' : rxn ∈ rules_producing d' target).
  { apply Hrules. rewrite El. apply elem_of_app. right. apply list_elem_of_here. }
  assert (Hle : forall r, r ∈ reactants rxn ->
            minimum_cost d' r (stack' ++ [target]) <= minimum_cost d r (stack ++ [target])).
  { intros r Hr. apply IH.
    - intros x. rewrite !elem_of_app. intros [?|?]; [left; by apply Hsub|by right].
    - assert ((remaining d' (stack' ++ [target]) < remaining d' stack')%nat); [|lia].
      apply remaining_push; [done|]. apply rules_producing_nonempty.
      intros Hnil. rewrite Hnil in Hin'. by apply elem_of_nil in Hin'. }
  etrans; [apply (minimum_cost_le_rule d' target stack' rxn _ Hst' Hin')|].
  - apply rule_cost_intro. intros r Hr. specialize (Hle r Hr). specialize (Hfeas r Hr). lia.
  - pose proof (sum_Z_map_le _ _ _ Hle). lia.
Qed.

Lemma cost_mono target stack stack' :
  (forall x, x ∈ stack' -> x ∈ stack) ->
  minimum_cost d' target stack' <= minimum_cost d target stack.
Proof.
  intros Hsub. apply (cost_mono_fuel (depth_bound d')); [done|apply remaining_le_bound].
Qed.
End CostMono.

Lemma pick_best_ext rc rc' rxns best :
  (forall r, r ∈ rxns -> rc r = rc' r) -> pick_best rc rxns best = pick_best rc' rxns best.
Proof.
  revert best. induction rxns as [|rxn rest IH]; intros best H; simpl; [done|].
  rewrite <- (H rxn) by apply list_elem_of_here.
  assert (Hrest : forall r, r ∈ rest -> rc r = rc' r)
    by (intros r Hr; apply H; by apply list_elem_of_further).
  destruct (rc rxn); [case_bool_decide|]; by apply IH.
Qed.

Lemma rules_producing_add_reaction rs p cond ty d q :
  rules_producing (_add_reaction rs p cond ty d) q
  = if decide (q = p) then rules_producing d q ++ [mkReaction rs p cond ty]
    else rules_producing d q.
Proof.
  unfold rules_producing. simpl. case_decide as Hq.
  - subst q. by rewrite lookup_insert_eq.
  - by rewrite lookup_insert_ne.
Qed.

(** X1 (cost range). The cost [_best_cost] returns lies between 0 and the
    sentinel [10**9]; it is 0 exactly for a starting material; no rule is
    returned exactly for a starting material or at cost [10**9]; and a
    returned rule is one of the rules producing the target, with the
    returned cost, between 1 and [10**9 - 1], as its own cost. *)
Theorem best_cost_range (d : OrganicRouteDesigner) (target : string) (stack : list string) :
  0 <= minimum_cost d target stack <= INF
  /\ (minimum_cost d target stack = 0 <-> target ∈ starting_materials d)
  /\ ((_best_cost d target stack).2 = None
      <-> target ∈ starting_materials d \/ minimum_cost d target stack = INF)
  /\ (forall rxn, (_best_cost d target stack).2 = Some rxn ->
        rxn ∈ rules_producing d target
        /\ 1 <= minimum_cost d target stack < INF
        /\ rule_cost d target stack rxn = Some (minimum_cost d target stack)).
Proof.
  destruct (minimum_cost_bounds d target stack) as [Hb Hpos].
  assert (Hsome : forall rxn, (_best_cost d target stack).2 = Some rxn ->
            rxn ∈ rules_producing d target
            /\ 1 <= minimum_cost d target stack < INF
            /\ rule_cost d target stack rxn = Some (minimum_cost d target stack)).
  { intros rxn Hrxn.
    destruct (best_cost_chosen d target stack rxn Hrxn) as (Hsm & _ & Hin & c & E & Hc & Hrc).
    specialize (Hpos Hsm). unfold minimum_cost in *. rewrite E in *. simpl in *.
    split_and!; try done; lia. }
  split; [exact Hb|]. split; [|split; [|exact Hsome]].
  - split.
    + intros H0. destruct (decide (target ∈ starting_materials d)) as [|Hn]; [done|].
      specialize (Hpos Hn). lia.
    + intros Hsm. unfold minimum_cost. by rewrite best_cost_sm.
  - split.
    + intros Hnone. destruct (decide (target ∈ starting_materials d)) as [|Hn]; [by left|].
      right. destruct (decide (minimum_cost d target stack < INF)) as [Hlt|]; [|lia].
      destruct (best_cost_finite d target stack Hn Hlt) as [rxn Hrxn]. congruence.
    + intros [Hsm|Hinf].
      * by rewrite best_cost_sm.
      * destruct (option_eq_dec (_best_cost d target stack).2 None) as [|Hne]; [done|].
        destruct (_best_cost d target stack).2 as [rxn|] eqn:E in Hne; [|done].
        destruct (Hsome rxn E) as (_ & ? & _). lia.
Qed.

(** X2 (ancestor path). The cost never grows when ancestors are removed
    from the path, so the cost from the empty path is the least; and the
    whole result, cost and rule, depends on the path only through the set
    of its entries. *)
Theorem best_cost_path_set (d : OrganicRouteDesigner) (target : string)
    (stack stack' : list string) :
  ((forall x, x ∈ stack' -> x ∈ stack) ->
     minimum_cost d target stack' <= minimum_cost d target stack)
  /\ minimum_cost d target [] <= minimum_cost d target stack
  /\ ((forall x, x ∈ stack <-> x ∈ stack') ->
        _best_cost d target stack = _best_cost d target stack').
Proof.
  assert (Hmono : forall t s s', (forall x, x ∈ s' -> x ∈ s) ->
            minimum_cost d t s' <= minimum_cost d t s).
  { intros t s s'. by apply (cost_mono d d). }
  split_and!.
  - apply Hmono.
  - apply Hmono. intros x Hx. by apply elem_of_nil in Hx.
  - intros Heq.
    destruct (decide (target ∈ starting_materials d)) as [Hsm|Hsm].
    { by rewrite !best_cost_sm. }
    destruct (decide (target ∈ stack)) as [Hst|Hst].
    { rewrite !best_cost_cycle; try done. by apply Heq. }
    assert (Hst' : target ∉ stack') by (by rewrite <- Heq).
    rewrite !best_cost_rules by done. apply pick_best_ext. intros rxn _.
    unfold rule_cost.
    assert (map (fun r => minimum_cost d r (stack ++ [target])) (reactants rxn)
            = map (fun r => minimum_cost d r (stack' ++ [target])) (reactants rxn)) as ->;
      [|done].
    apply map_ext. intros r. apply Z.le_antisymm; apply Hmono; intros x;
      rewrite !elem_of_app, Heq; tauto.
Qed.

Lemma best_cost_path_set_witness :
  minimum_cost designer "alcohol:C3" ["alkene:C3"; "haloalkane:C3"]
  <= minimum_cost designer "alcohol:C3" ["haloalkane:C3"; "alkene:C3"; "haloalkane:C3"]
  /\ _best_cost designer "acid:C3" ["ester:C3:C3"; "alcohol:C1"]
     = _best_cost designer "acid:C3" ["alcohol:C1"; "ester:C3:C3"; "alcohol:C1"].
Proof.
  destruct (best_cost_path_set designer "alcohol:C3"
              ["haloalkane:C3"; "alkene:C3"; "haloalkane:C3"]
              ["alkene:C3"; "haloalkane:C3"]) as (Hle & _ & _).
  destruct (best_cost_path_set designer "acid:C3"
              ["ester:C3:C3"; "alcohol:C1"]
              ["alcohol:C1"; "ester:C3:C3"; "alcohol:C1"]) as (_ & _ & Heq).
  split.
  - apply Hle. intros x Hx. revert x Hx. apply Forall_forall. by_eval.
  - apply Heq. intros x. rewrite !elem_of_cons, !elem_of_nil. tauto.
Defined.

(** ** The cache of [_best_cost] *)

Section MemoTermination.
Variable d : OrganicRouteDesigner.

Lemma reactants_total_memo_is_Some rec rs total c :
  (forall r c0, is_Some (rec r c0)) -> is_Some (reactants_total_memo rec rs total c).
Proof.
  intros Hrec. revert total c. induction rs as [|r rs IH]; intros total c; simpl; [eauto|].
  destruct (Hrec r c) as [[cr c1] ->]. case_bool_decide; eauto.
Qed.

Lemma best_loop_memo_is_Some rec rxns best c :
  (forall r c0, is_Some (rec r c0)) -> is_Some (best_loop_memo rec rxns best c).
Proof.
  intros Hrec. revert best c. induction rxns as [|rxn rest IH]; intros best c; simpl; [eauto|].
  destruct (reactants_total_memo_is_Some rec (reactants rxn) 1 c Hrec) as [[[total|] c1] ->];
    [case_bool_decide|]; apply IH.
Qed.

(** The store does not change the depth of the recursion: the depth bound
    of the knowledge base is enough fuel whatever is stored. *)
Lemma best_cost_memo_is_Some fuel target stack c :
  (remaining d stack < fuel)%nat -> is_Some (best_cost_memo d fuel target stack c).
Proof.
  revert target stack c. induction fuel as [|f IH]; intros target stack c Hlt; [lia|].
  change (best_cost_memo d (S f) target stack c)
    with (best_cost_memo_body d (best_cost_memo d f) target stack c).
  unfold best_cost_memo_body. destruct (c !! (target, stack)); [eauto|].
  case_bool_decide as Hsm; [eauto|]. case_bool_decide as Hst; [eauto|].
  destruct (rules_producing d target) as [|rxn rest] eqn:E; [simpl; eauto|].
  destruct (best_loop_memo_is_Some
              (fun r c' => best_cost_memo d f r (stack ++ [target]) c')
              (rxn :: rest) (INF, None) c) as [[v c1] ->]; [|eauto].
  intros r c0. apply IH.
  assert ((remaining d (stack ++ [target]) < remaining d stack)%nat); [|lia].
  apply remaining_push; [done|]. apply rules_producing_nonempty. by rewrite E.
Qed.
End MemoTermination.

(** *** An instance that is queried but not changed *)

Section MemoCorrect.
Variable d : OrganicRouteDesigner.

Lemma cache_ok_empty : cache_ok d ∅.
Proof. apply map_Forall_empty. Qed.

Lemma reactants_total_memo_correct rec s rs total c res c' :
  (forall r c0 v c1, cache_ok d c0 -> rec r c0 = Some (v, c1) ->
     v = _best_cost d r s /\ cache_ok d c1) ->
  cache_ok d c ->
  reactants_total_memo rec rs total c = Some (res, c') ->
  reactants_total (fun r => Some (_best_cost d r s)) rs total = Some res /\ cache_ok d c'.
Proof.
  intros Hrec. revert total c. induction rs as [|r rs IH]; intros total c Hc; simpl.
  { intros [= <- <-]. done. }
  destruct (rec r c) as [[cr c1]|] eqn:E; [|done].
  destruct (Hrec r c cr c1 Hc E) as [-> Hc1].
  case_bool_decide; [intros [= <- <-]; done|]. by apply IH.
Qed.

Lemma best_loop_memo_correct rec s rxns best c v c' :
  (forall r c0 v c1, cache_ok d c0 -> rec r c0 = Some (v, c1) ->
     v = _best_cost d r s /\ cache_ok d c1) ->
  cache_ok d c ->
  best_loop_memo rec rxns best c = Some (v, c') ->
  best_loop (fun r => Some (_best_cost d r s)) rxns best = Some v /\ cache_ok d c'.
Proof.
  intros Hrec. revert best c. induction rxns as [|rxn rest IH]; intros best c Hc; simpl.
  { intros [= <- <-]. done. }
  destruct (reactants_total_memo rec (reactants rxn) 1 c) as [[res c1]|] eqn:E; [|done].
  destruct (reactants_total_memo_correct rec s _ _ _ _ _ Hrec Hc E) as [-> Hc1]. simpl.
  destruct res as [total|]; [case_bool_decide|]; by apply IH.
Qed.

(** On a store that holds results of this knowledge base, the wrapped
    method returns what the body computes, and the store stays such. *)
Lemma best_cost_memo_correct fuel : forall target stack c v c',
  cache_ok d c ->
  best_cost_memo d fuel target stack c = Some (v, c') ->
  v = _best_cost d target stack /\ cache_ok d c' /\ c' !! (target, stack) = Some v.
Proof.
  induction fuel as [|f IH]; intros target stack c v c' Hc; [done|].
  change (best_cost_memo d (S f) target stack c)
    with (best_cost_memo_body d (best_cost_memo d f) target stack c).
  unfold best_cost_memo_body.
  destruct (c !! (target, stack)) as [v0|] eqn:Ehit.
  { intros [= <- <-]. split_and!; [|done|done]. apply (Hc _ _ Ehit). }
  pose proof (best_cost_unfold d target stack) as Hbody. unfold best_cost_body in Hbody.
  assert (Hins : forall c1, cache_ok d c1 -> v = _best_cost d target stack ->
            v = _best_cost d target stack
            /\ cache_ok d (<[(target, stack) := v]> c1)
            /\ <[(target, stack) := v]> c1 !! (target, stack) = Some v).
  { intros c1 Hc1 Hv. split_and!; [done| |apply lookup_insert_eq].
    by apply map_Forall_insert_2. }
  case_bool_decide as Hsm.
  { intros [= <- <-]. apply Hins; [done|congruence]. }
  case_bool_decide as Hst.
  { intros [= <- <-]. apply Hins; [done|congruence]. }
  destruct (best_loop_memo _ _ _ c) as [[v1 c1]|] eqn:E; [|done].
  intros [= <- <-].
  destruct (best_loop_memo_correct _ (stack ++ [target]) _ _ _ _ _
              (fun r c0 v c1 H0 H1 =>
                 let H := IH r (stack ++ [target]) c0 v c1 H0 H1 in
                 conj (proj1 H) (proj1 (proj2 H))) Hc E) as [Hl Hc1].
  apply Hins; [done|]. congruence.
Qed.
End MemoCorrect.

(** *** An instance whose knowledge base has grown since it was queried *)

Lemma extends_refl d : extends d d.
Proof. by split. Qed.

Lemma extends_add_reaction rs p cond ty d : extends d (_add_reaction rs p cond ty d).
Proof.
  split; [done|]. intros t r Hr. rewrite rules_producing_add_reaction.
  case_decide; [|done]. apply elem_of_app. by left.
Qed.

Lemma extends_starting_materials sm d :
  extends d (set_starting_materials (starting_materials d ∪ sm) d).
Proof. split; [|done]. intros x Hx. simpl. apply elem_of_union. by left. Qed.

Section MemoGrowth.
Variables d d' : OrganicRouteDesigner.
Hypothesis Hext : extends d d'.

Lemma cache_ok_between c : cache_ok d c -> cache_between d' d c.
Proof.
  intros Hc k v Hk. rewrite (Hc k v Hk). fold (minimum_cost d k.1 k.2).
  split; [|done]. destruct Hext as [Hsm Hrules]. by apply cost_mono.
Qed.

Lemma reactants_total_memo_between rec s rs : forall total c res c',
  (forall r c0 v c1, cache_between d' d c0 -> rec r c0 = Some (v, c1) ->
     minimum_cost d' r s <= v.1 <= minimum_cost d r s /\ cache_between d' d c1) ->
  cache_between d' d c ->
  reactants_total_memo rec rs total c = Some (res, c') ->
  cache_between d' d c'
  /\ (forall t, res = Some t ->
        (forall r, r ∈ rs -> minimum_cost d' r s < INF)
        /\ total + sum_Z (map (fun r => minimum_cost d' r s) rs) <= t)
  /\ ((forall r, r ∈ rs -> minimum_cost d r s < INF) ->
        exists t, res = Some t
                  /\ t <= total + sum_Z (map (fun r => minimum_cost d r s) rs)).
Proof.
  induction rs as [|r rs IH]; intros total c res c' Hrec Hc; simpl.
  { intros [= <- <-]. split_and!; [done| |].
    - intros t [= <-]. split; [|unfold sum_Z; simpl; lia].
      intros r Hr. by apply elem_of_nil in Hr.
    - intros _. exists total. split; [done|]. unfold sum_Z. simpl. lia. }
  destruct (rec r c) as [[cr c1]|] eqn:E; [|done].
  destruct (Hrec r c cr c1 Hc E) as [[Hlo Hhi] Hc1].
  case_bool_decide as Hinf.
  { intros [= <- <-]. split_and!; [done|done|].
    intros Hfeas. pose proof (Hfeas r (list_elem_of_here _ _)). lia. }
  intros Hrest.
  destruct (IH _ _ _ _ Hrec Hc1 Hrest) as (Hc' & Hlow & Hup). split_and!; [done| |].
  - intros t Ht. destruct (Hlow t Ht) as [Hf Hsum]. split.
    + intros r0 [->|Hr0]%elem_of_cons; [lia|by apply Hf].
    + unfold sum_Z in *. simpl. lia.
  - intros Hfeas. destruct Hup as (t & Ht & Hle).
    { intros r0 Hr0. apply Hfeas. by apply list_elem_of_further. }
    exists t. split; [done|]. unfold sum_Z in *. simpl. lia.
Qed.

Lemma best_loop_memo_between rec s rxns : forall best c v c',
  (forall r c0 v c1, cache_between d' d c0 -> rec r c0 = Some (v, c1) ->
     minimum_cost d' r s <= v.1 <= minimum_cost d r s /\ cache_between d' d c1) ->
  cache_between d' d c ->
  best_loop_memo rec rxns best c = Some (v, c') ->
  cache_between d' d c'
  /\ v.1 <= best.1
  /\ (v = best
      \/ exists rxn, rxn ∈ rxns
           /\ (forall r, r ∈ reactants rxn -> minimum_cost d' r s < INF)
           /\ 1 + sum_Z (map (fun r => minimum_cost d' r s) (reactants rxn)) <= v.1)
  /\ (forall rxn, rxn ∈ rxns ->
        (forall r, r ∈ reactants rxn -> minimum_cost d r s < INF) ->
        v.1 <= 1 + sum_Z (map (fun r => minimum_cost d r s) (reactants rxn))).
Proof.
  induction rxns as [|rxn rest IH]; intros best c v c' Hrec Hc; simpl.
  { intros [= <- <-]. split_and!; [done|lia|by left|].
    intros rxn Hr. by apply elem_of_nil in Hr. }
  destruct (reactants_total_memo rec (reactants rxn) 1 c) as [[res c1]|] eqn:E; [|done].
  destruct (reactants_total_memo_between rec s _ _ _ _ _ Hrec Hc E) as (Hc1 & Hlow & Hup).
  assert (Hkeep : (forall t, res = Some t -> best.1 <= t) ->
            best_loop_memo rec rest best c1 = Some (v, c') ->
            cache_between d' d c'
            /\ v.1 <= best.1
            /\ (v = best
                \/ exists rxn0, rxn0 ∈ rxn :: rest
                     /\ (forall r, r ∈ reactants rxn0 -> minimum_cost d' r s < INF)
                     /\ 1 + sum_Z (map (fun r => minimum_cost d' r s) (reactants rxn0)) <= v.1)
            /\ (forall rxn0, rxn0 ∈ rxn :: rest ->
                  (forall r, r ∈ reactants rxn0 -> minimum_cost d r s < INF) ->
                  v.1 <= 1 + sum_Z (map (fun r => minimum_cost d r s) (reactants rxn0)))).
  { intros Hge Hrest.
    destruct (IH _ _ _ _ Hrec Hc1 Hrest) as (Hc' & Hle & Hwho & Hall).
    split_and!; [done|done| |].
    - destruct Hwho as [->|(rxn0 & Hin & Hf & Hs)]; [by left|right].
      exists rxn0. split_and!; [by apply list_elem_of_further|done|done].
    - intros rxn0 [->|Hin]%elem_of_cons Hfeas; [|by apply Hall].
      destruct (Hup Hfeas) as (t & Ht & Hlt). specialize (Hge t Ht). lia. }
  destruct res as [total|]; [|apply Hkeep; congruence].
  case_bool_decide as Hlt; [|apply Hkeep; intros t [= <-]; lia].
  intros Hrest.
  destruct (IH _ _ _ _ Hrec Hc1 Hrest) as (Hc' & Hle & Hwho & Hall). simpl in Hle.
  destruct (Hlow total eq_refl) as [Hf Hs].
  split_and!; [done|lia| |].
  - right. destruct Hwho as [->|(rxn0 & Hin & Hf0 & Hs0)].
    + exists rxn. split_and!; [apply list_elem_of_here|done|simpl; lia].
    + exists rxn0. split_and!; [by apply list_elem_of_further|done|done].
  - intros rxn0 [->|Hin]%elem_of_cons Hfeas; [|by apply Hall].
    destruct (Hup Hfeas) as (t & [= <-] & Hlt'). lia.
Qed.

(** After the knowledge base has grown from [d] to [d'], a call on a store
    that holds costs between those of [d'] and of [d] returns such a cost
    and leaves such a store. *)
Lemma best_cost_memo_between fuel : forall target stack c v c',
  cache_between d' d c ->
  best_cost_memo d' fuel target stack c = Some (v, c') ->
  minimum_cost d' target stack <= v.1 <= minimum_cost d target stack
  /\ cache_between d' d c'.
Proof.
  destruct Hext as [Hsm Hrules].
  induction fuel as [|f IH]; intros target stack c v c' Hc; [done|].
  change (best_cost_memo d' (S f) target stack c)
    with (best_cost_memo_body d' (best_cost_memo d' f) target stack c).
  unfold best_cost_memo_body.
  destruct (c !! (target, stack)) as [v0|] eqn:Ehit.
  { intros [= <- <-]. split; [|done]. apply (Hc _ _ Ehit). }
  assert (Hins : forall c1, cache_between d' d c1 ->
            minimum_cost d' target stack <= v.1 <= minimum_cost d target stack ->
            minimum_cost d' target stack <= v.1 <= minimum_cost d target stack
            /\ cache_between d' d (<[(target, stack) := v]> c1)).
  { intros c1 Hc1 Hv. split; [done|]. by apply map_Forall_insert_2. }
  case_bool_decide as Hsm'.
  { intros [= <- <-]. apply Hins; [done|]. simpl.
    unfold minimum_cost at 1. rewrite best_cost_sm by done. simpl.
    split; [lia|apply minimum_cost_bounds]. }
  assert (Hnsm : target ∉ starting_materials d) by (intros H; by apply Hsm', Hsm).
  case_bool_decide as Hst.
  { intros [= <- <-]. apply Hins; [done|]. simpl.
    unfold minimum_cost. rewrite !best_cost_cycle by done. simpl. lia. }
  destruct (best_loop_memo _ _ _ c) as [[v1 c1]|] eqn:E; [|done].
  intros [= <- <-].
  destruct (best_loop_memo_between _ (stack ++ [target]) _ _ _ _ _
              (fun r c0 v c1 => IH r (stack ++ [target]) c0 v c1) Hc E)
    as (Hc1 & Hle & Hwho & Hall). simpl in Hle.
  apply Hins; [done|]. split.
  - destruct Hwho as [->|(rxn & Hin & Hf & Hs)]; [apply minimum_cost_bounds|].
    etrans; [|exact Hs].
    apply (minimum_cost_le_rule d' target stack rxn); [done|done|].
    by apply rule_cost_intro.
  - unfold minimum_cost.
    destruct (best_cost_cases d target stack Hnsm Hst)
      as [[Eold _]|(l1 & rxn & l2 & c0 & El & Eold & Hrc & Hlt & _)]; rewrite Eold; simpl.
    { done. }
    destruct (rule_cost_Some d target stack rxn c0 Hrc) as [Hfeas ->].
    apply Hall; [|done]. apply Hrules. rewrite El. apply elem_of_app. right.
    apply list_elem_of_here.
Qed.
End MemoGrowth.



(** X15 (the cache on an unchanged instance). On an instance whose store
    holds results of its present knowledge base, as the empty store of a
    new instance does, the wrapped [_best_cost] returns on every target and
    path, returns what the body computes without a store, and leaves a
    store that holds this result and is again such a store: as long as the
    knowledge base is not changed, the cache cannot be observed. *)
Theorem best_cost_cache_transparent (d : OrganicRouteDesigner) (c : best_cost_cache)
    (target : string) (stack : list string) :
  cache_ok d c ->
  cache_ok d ∅
  /\ exists c',
       best_cost_memo d (depth_bound d) target stack c
       = Some (_best_cost d target stack, c')
       /\ cache_ok d c'
       /\ c' !! (target, stack) = Some (_best_cost d target stack).
Proof.
  intros Hc. split; [apply cache_ok_empty|].
  destruct (best_cost_memo_is_Some d (depth_bound d) target stack c
              (remaining_le_bound d stack)) as [[v c'] E].
  destruct (best_cost_memo_correct d _ _ _ _ _ _ Hc E) as (-> & Hc' & Hk).
  exists c'. done.
Qed.

Lemma best_cost_cache_transparent_witness :
  exists c',
    best_cost_memo designer (depth_bound designer) "ester:C3:C3" [] ∅
    = Some (_best_cost designer "ester:C3:C3" [], c')
    /\ cache_ok designer c'
    /\ c' !! ("ester:C3:C3", []) = Some (_best_cost designer "ester:C3:C3" []).
Proof.
  apply (best_cost_cache_transparent designer ∅ "ester:C3:C3" []).
  apply map_Forall_empty.
Defined.

(** X4 (registration order). After any sequence of registrations the
    reactions are the old ones followed by the new ones in order, and the
    rules found for a product are the old ones for it followed by the new
    ones producing it, in the order registered. *)
Theorem add_reactions_index (d : OrganicRouteDesigner) (new : list Reaction) :
  reactions (foldl (fun d r => add_rule r d) d new) = reactions d ++ new
  /\ forall q, rules_producing (foldl (fun d r => add_rule r d) d new) q
               = rules_producing d q ++ filter (fun r => product r = q) new.
Proof.
  revert d. induction new as [|r new IH]; intros d; simpl.
  - split; [by rewrite app_nil_r|]. intros q. by rewrite filter_nil, app_nil_r.
  - destruct (IH (add_rule r d)) as [Hre Hru]. destruct r as [rs p c t]. split.
    + rewrite Hre. unfold add_rule. simpl. by rewrite <- app_assoc.
    + intros q. rewrite Hru. unfold add_rule. simpl reactants. simpl product.
      simpl condition. simpl reaction_type.
      rewrite rules_producing_add_reaction, filter_cons. simpl.
      destruct (decide (p = q)) as [->|Hne].
      * rewrite decide_True by done. by rewrite <- app_assoc.
      * rewrite decide_False by congruence. done.
Qed.

(** ** The registry of compounds *)

Lemma dict_get_set_eq k v l : dict_get k (dict_set k v l) = Some v.
Proof.
  induction l as [|[k' v'] l IH]; simpl.
  - by rewrite decide_True.
  - destruct (decide (k' = k)) as [->|Hne]; simpl.
    + by rewrite decide_True.
    + by rewrite decide_False.
Qed.

Lemma dict_get_set_ne k k' v l : k' <> k -> dict_get k' (dict_set k v l) = dict_get k' l.
Proof.
  intros Hne. induction l as [|[k0 v0] l IH]; simpl.
  - by rewrite decide_False.
  - destruct (decide (k0 = k)) as [->|Hne0]; simpl.
    + by rewrite !decide_False.
    + by rewrite IH.
Qed.

Lemma dict_get_None k l : k ∉ map fst l -> dict_get k l = None.
Proof.
  induction l as [|[k0 v0] l IH]; simpl; [done|].
  rewrite not_elem_of_cons. intros [Hne Hl]. rewrite decide_False by done. by apply IH.
Qed.

Lemma dict_set_keys k v l :
  map fst (dict_set k v l)
  = if decide (k ∈ map fst l) then map fst l else map fst l ++ [k].
Proof.
  induction l as [|[k0 v0] l IH].
  - cbn [dict_set map fst]. destruct (decide (k ∈ [])) as [Hin|_]; [|done].
    by apply elem_of_nil in Hin.
  - cbn [dict_set]. destruct (decide (k0 = k)) as [->|Hne]; cbn [map fst].
    + destruct (decide (k ∈ k :: map fst l)) as [_|Hin]; [done|].
      exfalso. apply Hin, list_elem_of_here.
    + rewrite IH.
      destruct (decide (k ∈ map fst l)) as [Hin|Hin];
        destruct (decide (k ∈ k0 :: map fst l)) as [Hin'|Hin']; try done.
      * exfalso. apply Hin'. by apply list_elem_of_further.
      * exfalso. apply elem_of_cons in Hin' as [Heq|?]; [|done]. by apply Hne.
Qed.

(** X5 (registering a compound). After [_add_compound cid name] the name
    resolves to the id and the id displays as the name; other names and ids
    resolve as before; an id that was never registered displays as itself;
    a re-registered id keeps its place among the ids and a new one goes
    last; and no cost changes. *)
Theorem add_compound_lookup (d : OrganicRouteDesigner) (cid name : string) :
  compound_id (_add_compound cid name d) name = Some cid
  /\ compound_name (_add_compound cid name d) cid = name
  /\ (forall n, n <> name -> compound_id (_add_compound cid name d) n = compound_id d n)
  /\ (forall c, c <> cid -> compound_name (_add_compound cid name d) c = compound_name d c)
  /\ (forall c, c ∉ map fst (id_to_name d) -> compound_name d c = c)
  /\ map fst (id_to_name (_add_compound cid name d))
     = (if decide (cid ∈ map fst (id_to_name d)) then map fst (id_to_name d)
        else map fst (id_to_name d) ++ [cid])
  /\ (forall target stack,
        _best_cost (_add_compound cid name d) target stack = _best_cost d target stack).
Proof.
  unfold compound_id, compound_name. simpl. split_and!.
  - apply lookup_insert_eq.
  - by rewrite dict_get_set_eq.
  - intros n Hn. by rewrite lookup_insert_ne.
  - intros c Hc. by rewrite dict_get_set_ne.
  - intros c Hc. by rewrite dict_get_None.
  - apply dict_set_keys.
  - reflexivity.
Qed.

Lemma add_compound_lookup_witness :
  compound_id (_add_compound "ester:C1:C1" "蚁酸甲酯" designer) "甲酸甲酯"
  = compound_id designer "甲酸甲酯"
  /\ compound_name designer "water" = "water".
Proof.
  destruct (add_compound_lookup designer "ester:C1:C1" "蚁酸甲酯")
    as (_ & _ & Hother & _ & Hmiss & _).
  split.
  - apply Hother. discriminate.
  - apply Hmiss. by_eval.
Defined.

#[global] Instance string_le_total : Total string_le.
Proof. intros a b. apply String.leb_total. Qed.

#[global] Instance string_le_trans : Transitive string_le.
Proof. intros a b c. apply string_leb_trans. Qed.

(** X6 (listing the names). [all_compound_names] is sorted ascending, has
    no name twice, and holds exactly the names that [compound_id] resolves,
    one entry per key of [name_to_id]. *)
Theorem all_compound_names_sorted (d : OrganicRouteDesigner) :
  StronglySorted string_le (all_compound_names d)
  /\ NoDup (all_compound_names d)
  /\ (forall n, n ∈ all_compound_names d <-> is_Some (compound_id d n))
  /\ length (all_compound_names d) = size (name_to_id d).
Proof.
  unfold all_compound_names.
  pose proof (merge_sort_Permutation string_le (elements (dom (name_to_id d)))) as Hperm.
  split_and!.
  - apply (StronglySorted_merge_sort string_le).
  - rewrite Hperm. apply NoDup_elements.
  - intros n. rewrite Hperm, elem_of_elements, elem_of_dom. done.
  - rewrite Hperm. rewrite <- size_dom. reflexivity.
Qed.

(** ** What a route is made of *)

Lemma expand_fuel_chosen (d : OrganicRouteDesigner) (fuel : nat) :
  forall target stack r, r ∈ expand_fuel d fuel target stack ->
    exists t s, (_best_cost d t s).2 = Some r.
Proof.
  induction fuel as [|fuel IH]; intros target stack r; simpl.
  - intros H. by apply elem_of_nil in H.
  - case_bool_decide as Hsm; [intros Hnil; by apply elem_of_nil in Hnil|].
    destruct (_best_cost d target stack).2 as [rxn|] eqn:E;
      [|intros Hnil; by apply elem_of_nil in Hnil].
    intros [Hin|Hin]%elem_of_app.
    + apply list_elem_of_In, in_flat_map in Hin as (x & _ & Hx).
      apply list_elem_of_In in Hx. by apply (IH x (stack ++ [target])).
    + apply list_elem_of_singleton in Hin as ->. eauto.
Qed.

Lemma design_route_steps_chosen (d : OrganicRouteDesigner) (target_name : string)
    (steps : list Reaction) (r : Reaction) :
  design_route d target_name = Some steps -> r ∈ steps ->
  exists t s, (_best_cost d t s).2 = Some r.
Proof.
  intros Hroute Hr.
  destruct (design_route_cases d target_name)
    as [[_ E]|[(c & _ & _ & E)|(c & st' & _ & _ & Hcol & E & _)]];
    rewrite Hroute in E; try done; injection E as ->.
  - by apply elem_of_nil in Hr.
  - destruct (collect_fuel_expand d _ _ _ _ _ seen_ok_empty Hcol) as [_ Hexp].
    rewrite Hexp in Hr. apply elem_of_dedup_onto in Hr as [Hr|Hr].
    + by apply elem_of_nil in Hr.
    + by apply (expand_fuel_chosen d _ _ _ _ Hr).
Qed.

(** X7 (steps of a route). Every input of every rule in a returned route
    is reachable on its own, from the empty path; and when the product
    index is sound, each rule of the route is a registered reaction whose
    product is not a starting material and is itself reachable. *)
Theorem route_steps_sound (d : OrganicRouteDesigner) (target_name : string)
    (steps : list Reaction) (r : Reaction) :
  design_route d target_name = Some steps -> r ∈ steps ->
  (forall x, x ∈ reactants r -> minimum_cost d x [] < INF)
  /\ (index_ok d ->
        r ∈ reactions d
        /\ (product r ∉ starting_materials d)
        /\ 1 <= minimum_cost d (product r) [] < INF).
Proof.
  intros Hroute Hr.
  destruct (design_route_steps_chosen d target_name steps r Hroute Hr) as (t & s & Hch).
  destruct (best_cost_chosen d t s r Hch) as (Hsm & Hs & Hin & c & E & Hc & Hrc).
  destruct (rule_cost_Some d t s r c Hrc) as [Hfeas _].
  assert (Hroot : forall x s', minimum_cost d x [] <= minimum_cost d x s').
  { intros x s'. apply (cost_mono d d); try done. intros y Hy. by apply elem_of_nil in Hy. }
  split.
  - intros x Hx. specialize (Hfeas x Hx). specialize (Hroot x (s ++ [t])). lia.
  - intros Hidx. pose proof (index_ok_product d t r Hidx Hin) as Hprod. rewrite Hprod.
    split_and!; try done.
    + rewrite (Hidx t) in Hin. by apply list_elem_of_filter in Hin as [_ ?].
    + by apply minimum_cost_bounds.
    + specialize (Hroot t s). unfold minimum_cost in Hroot at 2. rewrite E in Hroot.
      simpl in Hroot. lia.
Qed.

Lemma route_steps_sound_witness :
  exists steps r,
    design_route designer "丙酸丙酯" = Some steps /\ r ∈ steps
    /\ reactants r = ["aldehyde:C3"]
    /\ (forall x, x ∈ reactants r -> minimum_cost designer x [] < INF)
    /\ (index_ok designer ->
          r ∈ reactions designer
          /\ (product r ∉ starting_materials designer)
          /\ 1 <= minimum_cost designer (product r) [] < INF).
Proof.
  eexists. exists (mkReaction ["aldehyde:C3"] "acid:C3" "酸性KMnO₄ 或 [O]" "氧化反应").
  assert (Hroute : design_route designer "丙酸丙酯"
                   = Some (default [] (design_route designer "丙酸丙酯")))
    by (vm_compute; reflexivity).
  split; [exact Hroute|].
  assert (Hin : mkReaction ["aldehyde:C3"] "acid:C3" "酸性KMnO₄ 或 [O]" "氧化反应"
                ∈ default [] (design_route designer "丙酸丙酯")) by by_eval.
  split; [exact Hin|]. split; [reflexivity|].
  exact (route_steps_sound designer "丙酸丙酯" _ _ Hroute Hin).
Defined.

(** ** The printed answer *)

Lemma route_to_text_outcome (d d' : OrganicRouteDesigner) (n m : string)
    (r r' : option (list Reaction)) :
  route_to_text d n r = route_to_text d' m r' -> outcome_of r = outcome_of r'.
Proof.
  destruct r as [[|x xs]|], r' as [[|y ys]|]; simpl; try done; intros H; discriminate H.
Qed.

Lemma outcome_of_snoc (pre : list Reaction) (rxn : Reaction) :
  outcome_of (Some (pre ++ [rxn])) = Steps.
Proof. by destruct pre. Qed.

(** The three outcomes of [design_route] by what is known of the target. *)
Lemma design_route_trichotomy (d : OrganicRouteDesigner) (name : string) :
  index_ok d ->
  (compound_id d name = None /\ design_route d name = None)
  \/ (exists cid, compound_id d name = Some cid
        /\ (cid ∈ starting_materials d \/ minimum_cost d cid [] = INF)
        /\ design_route d name = Some [])
  \/ (exists cid pre rxn, compound_id d name = Some cid
        /\ (cid ∉ starting_materials d) /\ minimum_cost d cid [] < INF
        /\ design_route d name = Some (pre ++ [rxn]) /\ product rxn = cid).
Proof.
  intros Hidx.
  destruct (design_route_cases d name)
    as [?|[(cid & Hid & Hinf & Hr)|(cid & st' & Hid & Hc & _ & Hr & Hpost)]]; [by left|..].
  - right. left. exists cid. split_and!; try done. right.
    pose proof (minimum_cost_bounds d cid []). lia.
  - right. destruct (decide (cid ∈ starting_materials d)) as [Hsm|Hsm].
    + left. exists cid. split_and!; try done; [by left|].
      by apply (design_route_starting_material d name cid).
    + right. destruct Hpost as (_ & ext & Hext & _ & _ & Hi).
      destruct (Hi Hidx) as (_ & _ & _ & Hlast).
      destruct Hlast as (pre & rxn & -> & Hprod); [done| |].
      { intros r Hr'. by apply elem_of_nil in Hr'. }
      exists cid, pre, rxn. rewrite Hr, Hext. done.
Qed.

(** X8 (the printed answer). The text of [route_to_text] tells which of the
    three outcomes it renders, whatever the names and routes. For the answer
    to a target name: it is the not-in-the-database line exactly when the
    name is unknown; with a sound product index it is the
    cannot-be-synthesised line exactly when the name is known and its
    compound is a starting material or unreachable, and a listing headed by
    the target exactly when the compound is known, not a starting material
    and reachable. *)
Theorem route_text_classification (d : OrganicRouteDesigner) (name : string) :
  (forall d' m r r', route_to_text d name r = route_to_text d' m r' ->
     outcome_of r = outcome_of r')
  /\ (route_to_text d name (design_route d name) = "目标物“" +:+ name +:+ "”不在数据库中。"
      <-> compound_id d name = None)
  /\ (index_ok d ->
      (route_to_text d name (design_route d name) = "无法由设定起始原料合成“" +:+ name +:+ "”。"
       <-> exists cid, compound_id d name = Some cid
             /\ (cid ∈ starting_materials d \/ minimum_cost d cid [] = INF))
      /\ (String.prefix ("目标产物：" +:+ name +:+ newline)
            (route_to_text d name (design_route d name)) = true
          <-> exists cid, compound_id d name = Some cid
                /\ (cid ∉ starting_materials d) /\ minimum_cost d cid [] < INF)).
Proof.
  split; [intros d' m r r'; apply route_to_text_outcome|]. split.
  - change ("目标物“" +:+ name +:+ "”不在数据库中。") with (route_to_text d name None).
    split.
    + intros H%route_to_text_outcome.
      destruct (design_route_cases d name)
        as [[Hid _]|[(cid & _ & _ & Hr)|(cid & st' & _ & _ & _ & Hr & _)]];
        [done|rewrite Hr in H..].
      * done.
      * by destruct st'.2.
    + intros H. unfold design_route. by rewrite H.
  - intros Hidx.
    change ("无法由设定起始原料合成“" +:+ name +:+ "”。") with (route_to_text d name (Some [])).
    destruct (design_route_trichotomy d name Hidx)
      as [[Hid Hr]|[(cid & Hid & Hwhy & Hr)|(cid & pre & rxn & Hid & Hsm & Hc & Hr & _)]];
      rewrite Hr.
    + split; split.
      * intros H%route_to_text_outcome. done.
      * intros (cid & Hid' & _). congruence.
      * simpl. intros H. discriminate H.
      * intros (cid & Hid' & _). congruence.
    + split; split.
      * intros _. eauto.
      * done.
      * simpl. intros H. discriminate H.
      * intros (cid' & Hid' & Hsm & Hc). exfalso.
        rewrite Hid in Hid'. injection Hid' as <-. destruct Hwhy; [done|lia].
    + split; split.
      * intros H%route_to_text_outcome. by rewrite outcome_of_snoc in H.
      * intros (cid' & Hid' & Hwhy). exfalso.
        rewrite Hid in Hid'. injection Hid' as <-. destruct Hwhy; [done|lia].
      * intros _. eauto.
      * intros _. destruct pre as [|x pre]; simpl.
        -- clear. induction name as [|a name IH]; simpl.
           ++ reflexivity.
           ++ destruct (Ascii.ascii_dec a a); [done|done].
        -- clear. induction name as [|a name IH]; simpl.
           ++ reflexivity.
           ++ destruct (Ascii.ascii_dec a a); [done|done].
Qed.

Lemma route_text_classification_witness :
  route_to_text cycle_designer "a" (design_route cycle_designer "a")
  = "无法由设定起始原料合成“" +:+ "a" +:+ "”。"
  /\ String.prefix ("目标产物：" +:+ "苯胺" +:+ newline)
       (route_to_text designer "苯胺" (design_route designer "苯胺")) = true.
Proof.
  destruct (route_text_classification cycle_designer "a") as (_ & _ & Hc).
  destruct (Hc cycle_designer_index_ok) as [[_ Hnone] _].
  destruct (route_text_classification designer "苯胺") as (_ & _ & Hd).
  destruct (Hd designer_index_ok) as [_ [_ Hsteps]].
  split.
  - apply Hnone. exists "A". split; [vm_compute; reflexivity|].
    right. vm_compute. reflexivity.
  - apply Hsteps. exists "aniline". split_and!; [vm_compute; reflexivity|by_eval|].
    vm_compute. reflexivity.
Defined.

(** ** Slicing the ranking *)

Lemma demo_targets_nonneg (d : OrganicRouteDesigner) (count : Z) :
  0 <= count ->
  demo_targets d count
  = take (Z.to_nat count) (map snd (merge_sort key_le (candidates d))).
Proof.
  intros H. unfold demo_targets, slice_to. rewrite bool_decide_eq_true_2 by done.
  symmetry. apply firstn_map.
Qed.

Lemma ranked_length (d : OrganicRouteDesigner) :
  length (map snd (merge_sort key_le (candidates d))) = length (candidates d).
Proof.
  rewrite length_map. apply Permutation_length, merge_sort_Permutation.
Qed.

(** X9 (nested rankings). For counts [0 <= n <= m] the top-[n] list is the
    first [n] entries of the top-[m] list; it has [n] entries, or all the
    reachable compounds if there are fewer; and a count that covers them all
    gives the same list as any larger one. A count of 0 gives the empty
    list. *)
Theorem demo_targets_nested (d : OrganicRouteDesigner) (n m : Z) :
  0 <= n -> n <= m ->
  demo_targets d n = take (Z.to_nat n) (demo_targets d m)
  /\ length (demo_targets d n) = Nat.min (Z.to_nat n) (length (candidates d))
  /\ (Z.of_nat (length (candidates d)) <= n -> demo_targets d n = demo_targets d m)
  /\ demo_targets d 0 = [].
Proof.
  intros Hn Hm. rewrite !demo_targets_nonneg by lia. split_and!.
  - rewrite take_take. f_equal. lia.
  - rewrite length_take, ranked_length. done.
  - intros Hall. rewrite !take_ge; try done; rewrite ranked_length; lia.
  - done.
Qed.

Lemma demo_targets_nested_witness :
  demo_targets designer 3 = take 3 (demo_targets designer 120)
  /\ length (demo_targets designer 3) = Nat.min 3 (length (candidates designer))
  /\ (Z.of_nat (length (candidates designer)) <= 3 ->
      demo_targets designer 3 = demo_targets designer 120)
  /\ demo_targets designer 0 = [].
Proof. apply (demo_targets_nested designer 3 120); lia. Defined.

(** X10 (negative count). A negative count [-k] raises nothing: it gives
    the full ranking without its last [k] entries, and the empty list once
    [k] reaches the number of reachable compounds. *)
Theorem demo_targets_negative (d : OrganicRouteDesigner) (k : Z) :
  0 < k ->
  demo_targets d (- k)
  = take (length (candidates d) - Z.to_nat k)
         (demo_targets d (Z.of_nat (length (candidates d))))
  /\ (Z.of_nat (length (candidates d)) <= k -> demo_targets d (- k) = []).
Proof.
  intros Hk.
  assert (E : demo_targets d (- k)
              = take (length (candidates d) - Z.to_nat k)
                     (map snd (merge_sort key_le (candidates d)))).
  { unfold demo_targets. rewrite slice_to_negative by lia.
    rewrite <- firstn_map. f_equal.
    rewrite (Permutation_length (merge_sort_Permutation key_le (candidates d))).
    f_equal. lia. }
  split.
  - rewrite E, demo_targets_nonneg by lia. rewrite take_take. f_equal. lia.
  - intros Hall. rewrite E.
    replace (length (candidates d) - Z.to_nat k)%nat with 0%nat by lia. done.
Qed.

Lemma demo_targets_negative_witness :
  length (demo_targets ranking_designer (- 1)) = 1%nat
  /\ demo_targets ranking_designer (- 1)
     = take (length (candidates ranking_designer) - Z.to_nat 1)
            (demo_targets ranking_designer
               (Z.of_nat (length (candidates ranking_designer)))).
Proof.
  split; [vm_compute; reflexivity|].
  apply (demo_targets_negative ranking_designer 1). lia.
Defined.

(** ** The ranking and the planner together *)

Lemma elem_of_slice_to {A : Type} (count : Z) (l : list A) (x : A) :
  x ∈ slice_to count l -> x ∈ l.
Proof.
  unfold slice_to. case_bool_decide as Hc; intros Hx.
  - rewrite <- (take_drop (Z.to_nat count) l). apply elem_of_app. by left.
  - rewrite <- (take_drop (Z.to_nat (Z.of_nat (length l) + count)) l).
    apply elem_of_app. by left.
Qed.

Lemma demo_targets_candidate (d : OrganicRouteDesigner) (count : Z) (name : string) :
  name ∈ demo_targets d count ->
  exists cid, (cid, name) ∈ id_to_name d
              /\ (cid ∉ starting_materials d) /\ minimum_cost d cid [] < INF.
Proof.
  unfold demo_targets. intros H.
  apply list_elem_of_In, in_map_iff in H as ([c n] & Hn & Hin). simpl in Hn. subst n.
  apply list_elem_of_In, elem_of_slice_to in Hin.
  rewrite (merge_sort_Permutation key_le (candidates d)) in Hin.
  unfold candidates in Hin. rewrite candidates_loop_filter in Hin.
  apply list_elem_of_In, in_map_iff in Hin as ([cid n] & Heq & Hin).
  simpl in Heq. injection Heq as _ ->.
  apply list_elem_of_In, list_elem_of_filter in Hin as [[Hsm Hc] Hin]. simpl in *.
  eauto.
Qed.

(** X11 (ranked targets are routable). When the product index is sound and
    every registered id is found under its display name, each name that
    [demo_targets] lists, for any count, is given a non-empty route by
    [design_route], ending in a rule that produces the compound. *)
Theorem demo_targets_routable (d : OrganicRouteDesigner) (count : Z) (name : string) :
  index_ok d -> registry_ok d ->
  name ∈ demo_targets d count ->
  exists cid pre rxn,
    compound_id d name = Some cid
    /\ (cid ∉ starting_materials d)
    /\ design_route d name = Some (pre ++ [rxn]) /\ product rxn = cid.
Proof.
  intros Hidx Hreg Hin.
  destruct (demo_targets_candidate d count name Hin) as (cid & Hreg' & Hsm & Hc).
  apply Hreg in Hreg'.
  destruct (design_route_trichotomy d name Hidx)
    as [[Hid _]|[(c & Hid & Hwhy & _)|(c & pre & rxn & Hid & _ & _ & Hr & Hp)]];
    rewrite Hreg' in Hid; try done; injection Hid as <-.
  - exfalso. destruct Hwhy; [done|lia].
  - exists cid, pre, rxn. done.
Qed.

Lemma registry_ok_check (d : OrganicRouteDesigner) :
  Forall (fun kv => compound_id d kv.2 = Some kv.1) (id_to_name d) -> registry_ok d.
Proof.
  intros H cid name Hin. rewrite Forall_forall in H. apply (H (cid, name) Hin).
Qed.

Lemma designer_registry_ok : registry_ok designer.
Proof. apply registry_ok_check. by_eval. Qed.

Lemma demo_targets_routable_witness :
  exists cid pre rxn,
    compound_id designer "苯酚" = Some cid
    /\ (cid ∉ starting_materials designer)
    /\ design_route designer "苯酚" = Some (pre ++ [rxn]) /\ product rxn = cid.
Proof.
  apply (demo_targets_routable designer 120 "苯酚").
  - exact designer_index_ok.
  - exact designer_registry_ok.
  - by_eval.
Defined.

(** ** The generated document *)

Lemma concat_imap_lookup {A B : Type} (n : nat) (l : list A) :
  forall (f : nat -> A -> list B) (i j : nat) (x : A),
    (forall k y, length (f k y) = n) ->
    l !! i = Some x -> (j < n)%nat ->
    concat (imap f l) !! (n * i + j)%nat = f i x !! j.
Proof.
  induction l as [|y l IH]; intros f i j x Hlen Hi Hj; [done|].
  destruct i as [|i]; simpl in Hi.
  - injection Hi as ->. simpl. rewrite Nat.mul_0_r. simpl.
    apply lookup_app_l. by rewrite Hlen.
  - simpl. rewrite lookup_app_r by (rewrite Hlen; lia). rewrite Hlen.
    replace (n * S i + j - n)%nat with (n * i + j)%nat by lia.
    by apply (IH (fun k => f (S k))).
Qed.

Lemma concat_imap_length {A B : Type} (n : nat) (l : list A) :
  forall (f : nat -> A -> list B),
    (forall k y, length (f k y) = n) -> length (concat (imap f l)) = (n * length l)%nat.
Proof.
  induction l as [|y l IH]; intros f Hlen; simpl; [lia|].
  rewrite length_app, Hlen, (IH (f ∘ S)) by (intros; apply Hlen). lia.
Qed.

(** X12 (the generated document). The lines [generate_demo_file] writes
    are four header lines and five per listed target. The block of the
    target at position [i] starts at line [4 + 5 i] with a heading that
    numbers it [i + 1] and is followed, two lines on, by the answer for
    that target; with a sound index and registry this answer is a route
    listing, never one of the two failure lines. *)
Theorem demo_file_examples (d : OrganicRouteDesigner) (count : Z) :
  length (demo_file_lines d count) = (4 + 5 * length (demo_targets d count))%nat
  /\ forall i target, demo_targets d count !! i = Some target ->
       demo_file_lines d count !! (4 + 5 * i)%nat
       = Some ("## 示例 " +:+ pretty (S i) +:+ ": " +:+ target)
       /\ demo_file_lines d count !! (4 + 5 * i + 2)%nat
          = Some (route_to_text d target (design_route d target))
       /\ (index_ok d -> registry_ok d -> outcome_of (design_route d target) = Steps).
Proof.
  unfold demo_file_lines. split.
  - rewrite length_app, (concat_imap_length 5) by done. reflexivity.
  - intros i target Hi. split_and!.
    + rewrite lookup_app_r by (simpl; lia).
      replace (4 + 5 * i - length _)%nat with (5 * i + 0)%nat by (simpl; lia).
      rewrite (concat_imap_lookup 5 _ _ i 0 target); [done|done|done|lia].
    + rewrite lookup_app_r by (simpl; lia).
      replace (4 + 5 * i + 2 - length _)%nat with (5 * i + 2)%nat by (simpl; lia).
      rewrite (concat_imap_lookup 5 _ _ i 2 target); [done|done|done|lia].
    + intros Hidx Hreg.
      assert (Hin : target ∈ demo_targets d count) by (by eapply list_elem_of_lookup_2).
      destruct (demo_targets_candidate d count target Hin) as (cid & Hreg' & Hsm & Hc).
      apply Hreg in Hreg'.
      destruct (design_route_trichotomy d target Hidx)
        as [[Hid _]|[(c & Hid & Hwhy & _)|(c & pre & rxn & _ & _ & _ & Hr & _)]].
      * congruence.
      * rewrite Hreg' in Hid. injection Hid as <-. exfalso. destruct Hwhy; [done|lia].
      * rewrite Hr. apply outcome_of_snoc.
Qed.

Lemma demo_file_examples_witness :
  demo_file_lines designer 2 !! 9%nat = Some ("## 示例 2: 丙醇")
  /\ outcome_of (design_route designer "丙醇") = Steps.
Proof.
  destruct (demo_file_examples designer 2) as [_ H].
  destruct (H 1%nat "丙醇") as (Hhead & _ & Hsteps).
  - vm_compute. reflexivity.
  - split; [exact Hhead|].
    apply Hsteps; [exact designer_index_ok|exact designer_registry_ok].
Defined.

(** ** The knowledge base that [__init__] builds *)

(** X13 (the built-in knowledge base). In the object [__init__] builds the
    product index is sound, every id is found under its display name, ids
    and display names are each distinct, every reaction consumes and
    produces registered compounds only, the starting materials are
    registered, and every registered compound is reachable. *)
Theorem designer_well_formed :
  index_ok designer
  /\ registry_ok designer
  /\ NoDup (map fst (id_to_name designer))
  /\ NoDup (map snd (id_to_name designer))
  /\ (forall r, r ∈ reactions designer ->
        product r ∈ compounds designer
        /\ forall x, x ∈ reactants r -> x ∈ compounds designer)
  /\ starting_materials designer ⊆ compounds designer
  /\ (forall cid, cid ∈ compounds designer -> minimum_cost designer cid [] < INF).
Proof.
  split_and!.
  - exact designer_index_ok.
  - exact designer_registry_ok.
  - by_eval.
  - by_eval.
  - assert (Hp : list_to_set (map product (reactions designer)) ⊆ compounds designer)
      by by_eval.
    assert (Hx : list_to_set (flat_map reactants (reactions designer)) ⊆ compounds designer)
      by by_eval.
    intros r Hr. split.
    + apply Hp, elem_of_list_to_set, list_elem_of_In, in_map. by apply list_elem_of_In.
    + intros x Hin. apply Hx, elem_of_list_to_set, list_elem_of_In, in_flat_map.
      exists r. split; by apply list_elem_of_In.
  - by_eval.
  - assert (H : Forall (fun cid => minimum_cost designer cid [] < INF)
                  (map fst (id_to_name designer))) by by_eval.
    intros cid Hcid. rewrite Forall_forall in H. apply H.
    unfold compounds in Hcid. by apply elem_of_list_to_set in Hcid.
Qed.

(** ** The cost as the size of the smallest synthesis tree *)

Lemma sum_Z_Forall2_le {A : Type} (f : A -> Z) (l : list A) (sizes : list Z) :
  Forall2 (fun x n => f x <= n) l sizes -> sum_Z (map f l) <= sum_Z sizes.
Proof.
  induction 1 as [|x n l sizes Hx _ IH]; [done|].
  change (f x + sum_Z (map f l) <= n + sum_Z sizes). lia.
Qed.

Lemma sum_Z_map_elem {A : Type} (f : A -> Z) (l : list A) (x : A) :
  (forall y, y ∈ l -> 0 <= f y) -> x ∈ l -> f x <= sum_Z (map f l).
Proof.
  intros Hnn Hx. induction l as [|y l IH]; [by apply elem_of_nil in Hx|].
  assert (Hl : forall z, z ∈ l -> 0 <= f z)
    by (intros z Hz; apply Hnn; by apply list_elem_of_further).
  pose proof (sum_Z_map_nonneg f l Hl) as Hsum.
  pose proof (Hnn y (list_elem_of_here _ _)) as Hy.
  change (sum_Z (map f (y :: l))) with (f y + sum_Z (map f l)).
  apply elem_of_cons in Hx as [Hxy|Hx].
  - subst y. clear IH. lia.
  - specialize (IH Hl Hx). lia.
Qed.

Lemma Forall2_map_r_intro {A B : Type} (P : A -> B -> Prop) (f : A -> B) (l : list A) :
  (forall x, x ∈ l -> P x (f x)) -> Forall2 P l (map f l).
Proof.
  induction l as [|x l IH]; intros H; simpl; constructor.
  - apply H, list_elem_of_here.
  - apply IH. intros y Hy. apply H. by apply list_elem_of_further.
Qed.

Lemma derives_lower_bound (d : OrganicRouteDesigner) (height : nat) :
  forall path target n, derives d height path target n ->
    minimum_cost d target path <= n.
Proof.
  induction height as [|h IH]; intros path target n; simpl; [done|].
  intros [[Hsm ->]|(Hsm & Hp & rxn & sizes & Hin & Hall & ->)].
  { unfold minimum_cost. by rewrite best_cost_sm. }
  assert (Hle : Forall2 (fun r m => minimum_cost d r (path ++ [target]) <= m)
                  (reactants rxn) sizes).
  { eapply Forall2_impl; [exact Hall|]. intros r m. apply IH. }
  pose proof (sum_Z_Forall2_le _ _ _ Hle) as Hsum.
  destruct (decide (Forall (fun r => minimum_cost d r (path ++ [target]) < INF)
                      (reactants rxn))) as [Hfeas|Hinf].
  - rewrite Forall_forall in Hfeas.
    pose proof (minimum_cost_le_rule d target path rxn _ Hp Hin
                  (rule_cost_intro d target path rxn Hfeas)). lia.
  - apply not_Forall_Exists in Hinf; [|apply _].
    apply Exists_exists in Hinf as (r & Hr & Hge).
    pose proof (sum_Z_map_elem (fun r => minimum_cost d r (path ++ [target]))
                  (reactants rxn) r) as Hel.
    assert (minimum_cost d r (path ++ [target]) <= sum_Z sizes).
    { etrans; [apply Hel; [|done]|done]. intros y _. apply minimum_cost_bounds. }
    pose proof (minimum_cost_bounds d target path) as [Hb _].
    unfold compose in Hge. cbv beta in Hge. lia.
Qed.

Lemma derives_minimum (d : OrganicRouteDesigner) (height : nat) :
  forall path target, (remaining d path < height)%nat ->
    minimum_cost d target path < INF ->
    derives d height path target (minimum_cost d target path).
Proof.
  induction height as [|h IH]; intros path target Hh Hc; [lia|]. simpl.
  destruct (decide (target ∈ starting_materials d)) as [Hsm|Hsm].
  { left. split; [done|]. unfold minimum_cost. by rewrite best_cost_sm. }
  right. destruct (best_cost_finite d target path Hsm Hc) as [rxn Hrxn].
  destruct (best_cost_chosen d target path rxn Hrxn) as (_ & Hp & Hin & c & E & _ & Hrc).
  destruct (rule_cost_Some d target path rxn c Hrc) as [Hfeas Hsum].
  split_and!; try done.
  exists rxn, (map (fun r => minimum_cost d r (path ++ [target])) (reactants rxn)).
  split_and!; try done.
  - apply Forall2_map_r_intro. intros r Hr. apply IH; [|by apply Hfeas].
    assert ((remaining d (path ++ [target]) < remaining d path)%nat); [|lia].
    apply remaining_push; [done|]. apply rules_producing_nonempty.
    intros Hnil. rewrite Hnil in Hin. by apply elem_of_nil in Hin.
  - unfold minimum_cost at 1. by rewrite E.
Qed.

(** X14 (what the cost means). No synthesis tree of the target under the
    given ancestors, of whatever height, has fewer rule applications than
    the cost [_best_cost] returns; and when that cost is below [10**9] a
    synthesis tree with exactly that many rule applications exists, of
    height within the depth bound. So the target is reachable exactly when
    it has a synthesis tree with fewer than [10**9] rule applications. *)
Theorem cost_is_smallest_tree (d : OrganicRouteDesigner) (target : string)
    (path : list string) :
  (forall height n, derives d height path target n -> minimum_cost d target path <= n)
  /\ (minimum_cost d target path < INF ->
      derives d (depth_bound d) path target (minimum_cost d target path))
  /\ (minimum_cost d target path < INF
      <-> exists height n, derives d height path target n /\ n < INF).
Proof.
  split_and!.
  - intros height n. apply derives_lower_bound.
  - apply derives_minimum, remaining_le_bound.
  - split.
    + intros Hc. exists (depth_bound d), (minimum_cost d target path). split; [|done].
      by apply derives_minimum; [apply remaining_le_bound|].
    + intros (height & n & Hd & Hn). pose proof (derives_lower_bound d _ _ _ _ Hd). lia.
Qed.

Lemma cost_is_smallest_tree_witness :
  derives designer (depth_bound designer) [] "ester:C3:C3"
    (minimum_cost designer "ester:C3:C3" [])
  /\ minimum_cost designer "ester:C3:C3" [] = 5.
Proof.
  destruct (cost_is_smallest_tree designer "ester:C3:C3" []) as (_ & Hmin & _).
  split; [|vm_compute; reflexivity].
  apply Hmin. vm_compute. reflexivity.
Defined.
